(** * Sudoku solver: a shallow embedding of [src/sudokuSolver/Sudoku.ts]

    The class [Sudoku] owns a matrix [values : number[][]] that it validates
    at construction and then mutates in place, first by a propagation sweep
    ([solve]) and then by a backtracking search ([solveByTrialAndError]).

    Cells are JavaScript numbers ([number]); row and column indices and the
    candidate values are loop counters ([nat], and [Z] for the values 1 to 9
    and for the cursor of the backtracking loop, which the source decrements
    below zero).  The in-place mutation is explicit state
    passing over a record [sudoku] that also keeps the history of writes, so
    that statements about every point during [solve] can be made.  Loops
    that the source leaves by [break] take a number of iterations ([fuel]);
    [solve_terminates] shows that a sufficient number always exists. *)

From Stdlib Require Import ZArith Lia List Bool.
From stdpp Require Import base tactics option list sorting.

Local Open Scope nat_scope.

(** ** Numbers *)

(** A cell holds a number, which need not be an integer: [validate] has no
    test for that.  The code only compares cells ([===], [< 0], [> 9]), so a
    finite number is kept as its integer part [whole] (its floor) and its
    fractional part [frac], a fraction of [0, 1) given by its binary digits
    after the point, the first digit after the point in the lowest bit of
    [frac]: 0 for no digit (the number is an integer), 1 for .1 (one half),
    2 for .01 (one quarter), 3 for .11 (three quarters).  The last digit of
    a fraction is the highest bit of [frac], which is 1, so every finite
    double has exactly one such form and [===] is equality.  The negative
    zero is [===] to 0 and is not told apart from it.  [NaN] and the
    infinities are not numbers of the model: [validate] rejects a cell that
    holds one as it rejects a finite number outside 0..9 ([isNaN], [< 0],
    [> 9]), so no object is ever built from a matrix that holds one. *)
Record number := Num { whole : Z; frac : N }.

#[global] Instance number_eq_dec : EqDecision number.
Proof. solve_decision. Defined.

(** The integer [z] as a number, as for the loop variable [i]. *)
Definition ofZ (z : Z) : number := Num z 0.

(** The number 0, as the literal [0] of the source. *)
Abbreviation zero := (ofZ 0%Z).

(** [a === b] *)
Definition strictEq (a b : number) : bool :=
  Z.eqb (whole a) (whole b) && N.eqb (frac a) (frac b).

(** [value < 0]: the floor is negative. *)
Definition lessThanZero (value : number) : bool := (whole value <? 0)%Z.

(** [value > 9] *)
Definition greaterThanNine (value : number) : bool :=
  (9 <? whole value)%Z || ((whole value =? 9)%Z && negb (frac value =? 0)%N).

Definition isInteger (value : number) : Prop := frac value = 0%N.

(** ** The matrix *)

Abbreviation grid := (list (list number)).

(** A matrix of integers. *)
Definition ofRows (rows : list (list Z)) : grid := map (map ofZ) rows.

(** [this.values[x][y]] as an expression: [None] is the [undefined] read
    past the end of a row.  Every call site has [x < this.values.length]. *)
Definition cell (values : grid) (x y : nat) : option number :=
  match values !! x with
  | Some row => row !! y
  | None => None
  end.

(** [this.values[x][y] = v] for an index inside the matrix.  All writes of
    the source are at positions that were read from the matrix inside its
    bounds just before (see [sweepCell] and [elem_of_getUnfilledPositions]),
    so the array is never extended. *)
Definition setCell (values : grid) (x y : nat) (v : number) : grid :=
  alter (λ row, <[y := v]> row) x values.

(** [this.values[x][y] === value] *)
Definition cellIs (values : grid) (value : number) (p : nat * nat) : bool :=
  match cell values p.1 p.2 with
  | Some v => strictEq v value
  | None => false
  end.

(** The [count++] loops: how many of the visited positions pass the test. *)
Fixpoint countWhere {A} (f : A → bool) (l : list A) : nat :=
  match l with
  | [] => 0
  | a :: l' => (if f a then 1 else 0) + countWhere f l'
  end.

Definition rowLength (values : grid) (x : nat) : nat :=
  length (default [] (values !! x)).

Definition rowCoords (values : grid) (rowNumber : nat) : list (nat * nat) :=
  (λ y, (rowNumber, y)) <$> seq 0 (rowLength values rowNumber).

Definition columnCoords (values : grid) (columnNumber : nat) : list (nat * nat) :=
  (λ x, (x, columnNumber)) <$> seq 0 (length values).

(** The nine positions of the group of a cell, from its starting position
    [Math.floor(n / 3) * 3], rows outermost. *)
Definition groupCoords (rowNumber columnNumber : nat) : list (nat * nat) :=
  let groupX := rowNumber / 3 * 3 in
  let groupY := columnNumber / 3 * 3 in
  flat_map (λ x, (λ y, (x, y)) <$> seq groupY 3) (seq groupX 3).

Definition countValueInRow (values : grid) (rowNumber : nat) (value : number) : nat :=
  countWhere (cellIs values value) (rowCoords values rowNumber).

Definition countValueInColumn (values : grid) (columnNumber : nat) (value : number) : nat :=
  countWhere (cellIs values value) (columnCoords values columnNumber).

Definition countValueInGroup (values : grid) (rowNumber columnNumber : nat) (value : number) : nat :=
  countWhere (cellIs values value) (groupCoords rowNumber columnNumber).

Definition isValuePresentInRow (values : grid) (rowNumber : nat) (value : number) : bool :=
  0 <? countValueInRow values rowNumber value.

Definition isValuePresentInColumn (values : grid) (columnNumber : nat) (value : number) : bool :=
  0 <? countValueInColumn values columnNumber value.

Definition isValuePresentInGroup (values : grid) (rowNumber columnNumber : nat) (value : number) : bool :=
  0 <? countValueInGroup values rowNumber columnNumber value.

(** A position of the group qualifies when it holds 0 and the value is in
    neither its row nor its column. *)
Definition canHold (values : grid) (value : number) (p : nat * nat) : bool :=
  cellIs values zero p &&
  negb (isValuePresentInRow values p.1 value || isValuePresentInColumn values p.2 value).

Definition canValueBeAddedInOnlyOnePositionInGroup
    (values : grid) (rowNumber columnNumber : nat) (value : number) : bool :=
  countWhere (canHold values value) (groupCoords rowNumber columnNumber) =? 1.

Definition isValueValidInPosition
    (values : grid) (rowNumber columnNumber : nat) (value : number)
    (testOnlyOnePositionInGroup : bool) : bool :=
  negb (isValuePresentInRow values rowNumber value) &&
  negb (isValuePresentInColumn values columnNumber value) &&
  negb (isValuePresentInGroup values rowNumber columnNumber value) &&
  (if testOnlyOnePositionInGroup
   then canValueBeAddedInOnlyOnePositionInGroup values rowNumber columnNumber value
   else true).

(** [isSolved]: no cell of any row is 0. *)
Definition isSolved (values : grid) : bool :=
  forallb (forallb (λ v, negb (strictEq v zero))) values.

(** [isValueTested]: the values tested are values of the loop variable. *)
Definition isValueTested (valuesTested : list Z) (value : Z) : bool :=
  existsb (λ t, Z.eqb t value) valuesTested.

(** ** Construction and validation *)

(** The two failures of [validate]: ['Invalid game.'] and
    ['Invalid game. Position : (x,y)']. *)
Inductive error :=
  | StructuralError
  | ConstraintError (x y : nat).

(** The test of lines 120-126 on the cell at [(x, y)].  On the numbers of
    the model [isNaN(Number(value))] is false. *)
Definition cellRejected (values : grid) (x y : nat) : bool :=
  match cell values x y with
  | Some value =>
      negb (strictEq value zero) &&
      (lessThanZero value || greaterThanNine value ||
       (1 <? countValueInRow values x value) ||
       (1 <? countValueInColumn values y value) ||
       (1 <? countValueInGroup values x y value))
  | None => false
  end.

Fixpoint validateCells (values : grid) (x : nat) (ys : list nat) : option error :=
  match ys with
  | [] => None
  | y :: ys' =>
      if cellRejected values x y then Some (ConstraintError x y)
      else validateCells values x ys'
  end.

Fixpoint validateRows (values : grid) (xs : list nat) : option error :=
  match xs with
  | [] => None
  | x :: xs' =>
      if negb (rowLength values x =? 9) then Some StructuralError
      else match validateCells values x (seq 0 (rowLength values x)) with
           | Some e => Some e
           | None => validateRows values xs'
           end
  end.

(** [validate]: [None] when nothing is thrown. *)
Definition validate (values : grid) : option error :=
  if negb (length values =? 9) then Some StructuralError
  else validateRows values (seq 0 (length values)).

(** ** The object and its mutation *)

(** A write [this.values[x][y] = v] of [solve]: the value written is 0 or a
    value of the loop variable. *)
Abbreviation write := (nat * nat * Z)%type.

(** The state of a [Sudoku] object: the matrix, and the history of the
    writes made to it since construction (oldest first).  The history is not
    read by any operation. *)
Record sudoku := mkSudoku { values : grid; writes : list write }.

Definition setValue (s : sudoku) (x y : nat) (v : Z) : sudoku :=
  {| values := setCell (values s) x y (ofZ v); writes := writes s ++ [(x, y, v)] |}.

(** [new Sudoku(values)] *)
Definition Sudoku (m : grid) : error + sudoku :=
  match validate m with
  | Some e => inl e
  | None => inr {| values := m; writes := [] |}
  end.


(** ** The propagation sweep of [solve] *)

(** The candidates [for (let i = 1; i <= 9; i++)]. *)
Definition candidates : list Z := [1; 2; 3; 4; 5; 6; 7; 8; 9]%Z.

(** The body of the two nested loops (lines 40-48) at [(x, y)]; the flag is
    [haveChangesOccured]. *)
Definition sweepCell (acc : sudoku * bool) (x y : nat) : sudoku * bool :=
  if cellIs (values acc.1) zero (x, y) then
    match find (λ i, isValueValidInPosition (values acc.1) x y (ofZ i) true)
               candidates with
    | Some i => (setValue acc.1 x y i, true)
    | None => acc
    end
  else acc.

Definition sweepRow (acc : sudoku * bool) (x : nat) : sudoku * bool :=
  fold_left (λ a y, sweepCell a x y) (seq 0 (rowLength (values acc.1) x)) acc.

(** One pass over the matrix (lines 37-50). *)
Definition sweep (s : sudoku) : sudoku * bool :=
  fold_left sweepRow (seq 0 (length (values s))) (s, false).

(** How a loop ended: by leaving normally, by a [TypeError], or because the
    model ran out of iterations. *)
Inductive status := Returned | Threw | OutOfFuel.

(** The [while (!this.isSolved())] loop of [solve]. *)
Fixpoint propagate (fuel : nat) (s : sudoku) : status * sudoku :=
  if isSolved (values s) then (Returned, s)
  else match fuel with
       | 0 => (OutOfFuel, s)
       | S fuel' =>
           let r := sweep s in
           if r.2 then propagate fuel' r.1 else (Returned, r.1)
       end.

(** ** The backtracking search *)

Module Position.
(** The objects [{ x: x, y: y, valuesTested: [] }]. *)
Record t := mk { x : nat; y : nat; valuesTested : list Z }.
End Position.

Definition getUnfilledPositions (values : grid) : list Position.t :=
  flat_map (λ x,
    flat_map (λ y,
      if cellIs values zero (x, y) then [Position.mk x y []] else [])
      (seq 0 (length values))) (seq 0 (length values)).

(** [array[i]] for a numeric index that may be negative: [undefined] then. *)
Definition arrayGet {A} (l : list A) (i : Z) : option A :=
  if (i <? 0)%Z then None else l !! Z.to_nat i.

(** The state of the loop of [solveByTrialAndError]. *)
Record search := mkSearch {
  game : sudoku;
  unfilledPositions : list Position.t;
  nextIndex : Z
}.

Inductive stepResult :=
  | Continue (st : search)
  | Break (s : sudoku)
  | TypeError (s : sudoku).

(** The scan of lines 79-90: the first candidate not yet tested and valid. *)
Definition firstUntested (values : grid) (p : Position.t) : option Z :=
  find (λ i, negb (isValueTested (Position.valuesTested p) i) &&
             isValueValidInPosition values (Position.x p) (Position.y p)
               (ofZ i) false)
       candidates.

(** Line 75: the value at the position is set to zero. *)
Definition clearCurrent (st : search) (p : Position.t) : search :=
  {| game := setValue (game st) (Position.x p) (Position.y p) 0%Z;
     unfilledPositions := unfilledPositions st;
     nextIndex := nextIndex st |}.

(** Lines 84-86 and 101: the value is recorded as tested and written, and
    the index moves on.  The entry read from the array is an object shared
    with the array, so a change of its [valuesTested] is a change of the
    array's entry. *)
Definition accept (st : search) (p : Position.t) (i : Z) : search :=
  {| game := setValue (game st) (Position.x p) (Position.y p) i;
     unfilledPositions :=
       <[Z.to_nat (nextIndex st) :=
           Position.mk (Position.x p) (Position.y p) (Position.valuesTested p ++ [i])]>
         (unfilledPositions st);
     nextIndex := (nextIndex st + 1)%Z |}.

(** Lines 95-97: back to the previous unfilled position. *)
Definition goBack (st : search) (p : Position.t) : search :=
  {| game := setValue (game st) (Position.x p) (Position.y p) 0%Z;
     unfilledPositions :=
       <[Z.to_nat (nextIndex st) := Position.mk (Position.x p) (Position.y p) []]>
         (unfilledPositions st);
     nextIndex := (nextIndex st - 1)%Z |}.

(** One iteration of [while (true)] (lines 69-102).  When no value is found
    and [isSolved()] holds, the source changes nothing more and iterates
    again. *)
Definition step (st : search) : stepResult :=
  if (Z.of_nat (length (unfilledPositions st)) - 1 <? nextIndex st)%Z
  then Break (game st)
  else
    match arrayGet (unfilledPositions st) (nextIndex st) with
    | None => TypeError (game st)
    | Some p =>
        let st1 := clearCurrent st p in
        match firstUntested (values (game st1)) p with
        | Some i => Continue (accept st1 p i)
        | None =>
            if negb (isSolved (values (game st1)))
            then Continue (goBack st1 p)
            else Continue st1
        end
    end.

Fixpoint searchLoop (fuel : nat) (st : search) : status * sudoku :=
  match fuel with
  | 0 => (OutOfFuel, game st)
  | S fuel' =>
      match step st with
      | Break s => (Returned, s)
      | TypeError s => (Threw, s)
      | Continue st' => searchLoop fuel' st'
      end
  end.

(** Lines 66-67: the state in which the loop is entered. *)
Definition searchStart (s : sudoku) : search :=
  {| game := s;
     unfilledPositions := getUnfilledPositions (values s);
     nextIndex := 0%Z |}.

Definition solveByTrialAndError (fuel : nat) (s : sudoku) : status * sudoku :=
  searchLoop fuel (searchStart s).

(** [solve]: the sweeps, then the search if the matrix is not solved. *)
Definition solve (fuel : nat) (s : sudoku) : status * sudoku :=
  match propagate fuel s with
  | (Returned, s1) =>
      if negb (isSolved (values s1)) then solveByTrialAndError fuel s1
      else (Returned, s1)
  | r => r
  end.

(** ** Sample matrices *)

Definition zeroRow : list number := replicate 9 zero.
Definition emptyGrid : grid := replicate 9 zeroRow.

Definition twoFives (c1 c2 : nat) : grid :=
  setCell (setCell emptyGrid 0 c1 (ofZ 5)) 0 c2 (ofZ 5).

Definition values1 : grid :=
  ofRows [ [4; 1; 0; 0; 6; 0; 0; 7; 8];
    [7; 0; 3; 5; 0; 1; 4; 2; 0];
    [0; 0; 8; 4; 7; 3; 0; 6; 0];
    [0; 5; 0; 0; 9; 4; 8; 3; 0];
    [3; 9; 0; 0; 1; 0; 7; 0; 0];
    [2; 8; 4; 3; 0; 0; 0; 0; 0];
    [6; 0; 0; 0; 0; 0; 0; 8; 0];
    [0; 0; 1; 9; 4; 0; 0; 0; 0];
    [0; 4; 9; 0; 2; 8; 0; 0; 0] ]%Z.

Definition cornerGrid : grid :=
  setCell (setCell emptyGrid 0 0 (ofZ 1)) 8 8 (ofZ 2).

Definition deadEndGrid : grid :=
  ofRows [ [1; 2; 3; 4; 5; 6; 7; 8; 0];
    [0; 0; 0; 0; 0; 0; 0; 0; 9];
    [0; 0; 0; 0; 0; 0; 0; 0; 0];
    [0; 0; 0; 0; 0; 0; 0; 0; 0];
    [0; 0; 0; 0; 0; 0; 0; 0; 0];
    [0; 0; 0; 0; 0; 0; 0; 0; 0];
    [0; 0; 0; 0; 0; 0; 0; 0; 0];
    [0; 0; 0; 0; 0; 0; 0; 0; 0];
    [0; 0; 0; 0; 0; 0; 0; 0; 0] ]%Z.

(** ** Properties stated about the matrix *)

(** The matrix is 9 by 9. *)
Definition is9x9 (g : grid) : Prop :=
  length g = 9 ∧ ∀ x, x < 9 → rowLength g x = 9.

(** Row [x] passes [validate]: its length and each of its cells. *)
Definition rowAccepted (g : grid) (x : nat) : Prop :=
  rowLength g x = 9 ∧ ∀ y, y < 9 → cellRejected g x y = false.

(** Every cell is an integer. *)
Definition integral (g : grid) : Prop :=
  ∀ x y v, cell g x y = Some v → isInteger v.

(** What [validate] establishes and every write of [solve] keeps: the shape,
    the range of the cells (from 0 to 9, integer or not), and no value other
    than 0 twice in a row, a column or a group. *)
Record consistent (g : grid) : Prop := {
  consistent_shape : is9x9 g;
  consistent_range :
    ∀ x y v, cell g x y = Some v →
             lessThanZero v = false ∧ greaterThanNine v = false;
  consistent_row : ∀ r v, v ≠ zero → countValueInRow g r v ≤ 1;
  consistent_column : ∀ c v, v ≠ zero → countValueInColumn g c v ≤ 1;
  consistent_group : ∀ r c v, v ≠ zero → countValueInGroup g r c v ≤ 1
}.

(** The object a step leaves behind, however the step ended. *)
Definition gameAfter (r : stepResult) : sudoku :=
  match r with
  | Continue st => game st
  | Break s => s
  | TypeError s => s
  end.

(** The object built from the first test matrix of the source. *)
Definition game1 : sudoku := {| values := values1; writes := [] |}.

(** Value 5 in the first two cells of row 0, 0 everywhere else. *)
Definition fivesGrid : grid :=
  ofRows [ [5; 5; 0; 0; 0; 0; 0; 0; 0];
    [0; 0; 0; 0; 0; 0; 0; 0; 0];
    [0; 0; 0; 0; 0; 0; 0; 0; 0];
    [0; 0; 0; 0; 0; 0; 0; 0; 0];
    [0; 0; 0; 0; 0; 0; 0; 0; 0];
    [0; 0; 0; 0; 0; 0; 0; 0; 0];
    [0; 0; 0; 0; 0; 0; 0; 0; 0];
    [0; 0; 0; 0; 0; 0; 0; 0; 0];
    [0; 0; 0; 0; 0; 0; 0; 0; 0] ]%Z.

(** Nine rows, a duplicate in row 0, and a last row of three cells. *)
Definition raggedGrid : grid :=
  ofRows [ [5; 5; 0; 0; 0; 0; 0; 0; 0];
    [0; 0; 0; 0; 0; 0; 0; 0; 0];
    [0; 0; 0; 0; 0; 0; 0; 0; 0];
    [0; 0; 0; 0; 0; 0; 0; 0; 0];
    [0; 0; 0; 0; 0; 0; 0; 0; 0];
    [0; 0; 0; 0; 0; 0; 0; 0; 0];
    [0; 0; 0; 0; 0; 0; 0; 0; 0];
    [0; 0; 0; 0; 0; 0; 0; 0; 0];
    [0; 0; 0] ]%Z.

(** The solution of [values1]. *)
Definition solved1 : grid :=
  ofRows [ [4; 1; 5; 2; 6; 9; 3; 7; 8];
    [7; 6; 3; 5; 8; 1; 4; 2; 9];
    [9; 2; 8; 4; 7; 3; 5; 6; 1];
    [1; 5; 7; 6; 9; 4; 8; 3; 2];
    [3; 9; 6; 8; 1; 2; 7; 4; 5];
    [2; 8; 4; 3; 5; 7; 1; 9; 6];
    [6; 7; 2; 1; 3; 5; 9; 8; 4];
    [8; 3; 1; 9; 4; 6; 2; 5; 7];
    [5; 4; 9; 7; 2; 8; 6; 1; 3] ]%Z.

Definition deadEndGame : sudoku := {| values := deadEndGrid; writes := [] |}.

(** The number 1.5. *)
Definition oneAndHalf : number := Num 1 1.

(** 1.5 in the first cell, 0 everywhere else. *)
Definition halfGrid : grid := setCell emptyGrid 0 0 oneAndHalf.

Definition halfGame : sudoku := {| values := halfGrid; writes := [] |}.

(** ** Measures and invariants of the two loops *)

Definition allCoords (g : grid) : list (nat * nat) :=
  flat_map (rowCoords g) (seq 0 (length g)).

(** The number of unfilled cells. *)
Definition zeros (g : grid) : nat := countWhere (cellIs g zero) (allCoords g).

(** [n] iterations of the search loop, or fewer if it ends before. *)
Fixpoint steps (n : nat) (st : search) : stepResult :=
  match n with
  | 0 => Continue st
  | S n' =>
      match step st with
      | Continue st' => steps n' st'
      | r => r
      end
  end.

(** The loop has been left (normally or by the [TypeError]). *)
Definition ended (r : stepResult) : Prop :=
  match r with
  | Continue _ => False
  | _ => True
  end.

Definition coords (p : Position.t) : nat * nat := (Position.x p, Position.y p).

Definition cellAt (g : grid) (p : Position.t) : option number :=
  cell g (Position.x p) (Position.y p).

(** What holds of the search state at the head of the loop: the positions
    are inside the matrix and pairwise distinct, each list of tested values
    is duplicate-free and made of candidates, and every position before the
    index holds a value that is in its list of tested values. *)
Record searchInv (st : search) : Prop := {
  inv_inside :
    Forall (λ p, is_Some (cellAt (values (game st)) p)) (unfilledPositions st);
  inv_tested :
    Forall (λ p, NoDup (Position.valuesTested p) ∧
                 ∀ v, v ∈ Position.valuesTested p → In v candidates)
           (unfilledPositions st);
  inv_distinct : NoDup (coords <$> unfilledPositions st);
  inv_held :
    ∀ j p, (Z.of_nat j < nextIndex st)%Z → unfilledPositions st !! j = Some p →
           ∃ v, cellAt (values (game st)) p = Some (ofZ v) ∧
                v ∈ Position.valuesTested p
}.

(** The number of cells of the matrix that are not 0. *)
Definition filledCells (g : grid) : nat :=
  countWhere (λ v, negb (strictEq v zero)) (concat g).

Definition cornerGame : sudoku := {| values := cornerGrid; writes := [] |}.

(** ** The acceptance rule of the sweep, in the words of its description *)

(** Position [p] qualifies for [v]: it is unfilled, and [v] is absent from
    its row and from its column. *)
Definition qualifies (g : grid) (v : number) (p : nat * nat) : Prop :=
  cell g p.1 p.2 = Some zero ∧
  countValueInRow g p.1 v = 0 ∧ countValueInColumn g p.2 v = 0.

(** [v] is absent from the row, the column and the group of [(x, y)], and
    exactly one position of the group qualifies. *)
Definition accepted (g : grid) (x y : nat) (v : number) : Prop :=
  countValueInRow g x v = 0 ∧ countValueInColumn g y v = 0 ∧
  countValueInGroup g x y v = 0 ∧
  ∃ p, p ∈ groupCoords x y ∧ qualifies g v p ∧
       ∀ q, q ∈ groupCoords x y → qualifies g v q → q = p.

(** ** The history of writes *)

(** The matrix after the writes [ws], oldest first. *)
Definition replay (ws : list write) (g : grid) : grid :=
  fold_left (λ g' w, setCell g' w.1.1 w.1.2 (ofZ w.2)) ws g.

(** [s] is [s0] after the writes [ws]. *)
Definition writesSince (s0 s : sudoku) (ws : list write) : Prop :=
  writes s = writes s0 ++ ws ∧ values s = replay ws (values s0).

(** Every write of [ws] goes to a cell that holds 0 at the moment of the
    write, when the writes start from [g]. *)
Definition writesToUnfilled (g : grid) (ws : list write) : Prop :=
  ∀ k w, ws !! k = Some w → cell (replay (take k ws) g) w.1.1 w.1.2 = Some zero.

(** Every write of [ws] goes to one of the positions [ps]. *)
Definition writesWithin (ps : list Position.t) (ws : list write) : Prop :=
  Forall (λ w, (w.1.1, w.1.2) ∈ coords <$> ps) ws.

(** A cell other than 0 of [g] is the same in [g']. *)
Definition givensKept (g g' : grid) : Prop :=
  ∀ x y v, cell g x y = Some v → v ≠ zero → cell g' x y = Some v.

(** The object is [s0] after sweeps. *)
Definition sweptFrom (s0 s : sudoku) : Prop :=
  ∃ ws, writesSince s0 s ws ∧ writesToUnfilled (values s0) ws.

(** The search state comes from a search started on [s1]. *)
Definition searchedFrom (s1 : sudoku) (st : search) : Prop :=
  coords <$> unfilledPositions st = coords <$> getUnfilledPositions (values s1) ∧
  ∃ ws, writesSince s1 (game st) ws ∧
        writesWithin (getUnfilledPositions (values s1)) ws.

(** ** The dead end of the search, in the words of its description *)

(** What the iteration at index [k], position [p], does when no value is
    accepted: the matrix is not complete at that point; the iteration ends in
    the state [goBack] where the cell of [p] holds 0, the list of tested
    values of [p] is empty and the index is [k - 1]; the other entries are
    untouched; and the entry before, if there is one, still has the value of
    its cell among its tested values, so that the value it accepts next, if
    any, is another one. *)
Definition deadEndOutcome (st : search) (k : nat) (p : Position.t) : Prop :=
  let st' := goBack (clearCurrent st p) p in
  isSolved (values (game (clearCurrent st p))) = false ∧
  step st = Continue st' ∧
  cellAt (values (game st')) p = Some zero ∧
  unfilledPositions st' !! k = Some (Position.mk (Position.x p) (Position.y p) []) ∧
  nextIndex st' = (Z.of_nat k - 1)%Z ∧
  (∀ j, j ≠ k → unfilledPositions st' !! j = unfilledPositions st !! j) ∧
  (∀ q, 0 < k → unfilledPositions st !! (k - 1) = Some q →
     ∃ v, cellAt (values (game st')) q = Some (ofZ v) ∧
          v ∈ Position.valuesTested q ∧
          ∀ i, firstUntested (values (game (clearCurrent st' q))) q = Some i →
               i ≠ v).

(** The search on [values1] after its first iteration: the cell (0, 2)
    holds 2 and the index is 1. *)
Definition backtrackState : search :=
  match steps 1 (searchStart game1) with
  | Continue st => st
  | _ => searchStart game1
  end.

(** ** Solutions *)

(** [sol] is a solution of the puzzle [g]: a complete consistent matrix that
    has the cells of [g] other than 0. *)
Definition solutionOf (g sol : grid) : Prop :=
  consistent sol ∧ isSolved sol = true ∧ givensKept g sol.

(** The cell [(x', y')] comes before [(x, y)] in the order of the loops. *)
Definition rowMajorBefore (x' y' x y : nat) : Prop :=
  x' < x ∨ (x' = x ∧ y' < y).

(** A test for [givensKept], over the cells of [g]. *)
Definition givensKeptb (g sol : grid) : bool :=
  forallb (λ p, match cell g p.1 p.2 with
                | Some v => strictEq v zero || cellIs sol v p
                | None => true
                end) (allCoords g).

(** ** More invariants of the search *)

(** The positions after the index hold 0 and have no tested value. *)
Definition searchTail (st : search) : Prop :=
  ∀ j p, (nextIndex st < Z.of_nat j)%Z → unfilledPositions st !! j = Some p →
         cellAt (values (game st)) p = Some zero ∧ Position.valuesTested p = [].

(** The search has not passed the solution [sol]: up to some position [d],
    not after the index, the cells are those of [sol], and the value of
    [sol] at position [d] has not been tested there. *)
Definition onTrack (sol : grid) (st : search) : Prop :=
  ∃ d, (Z.of_nat d ≤ nextIndex st)%Z ∧
       (∀ j p, j < d → unfilledPositions st !! j = Some p →
               cellAt (values (game st)) p = cellAt sol p) ∧
       (∀ p v, unfilledPositions st !! d = Some p →
               cellAt sol p = Some (ofZ v) → v ∉ Position.valuesTested p).

(** The three invariants of a search started on [s1]. *)
Definition searchGood (s1 : sudoku) (st : search) : Prop :=
  searchInv st ∧ searchTail st ∧ searchedFrom s1 st.

(** The order of the list of unfilled positions: row by row. *)
Definition positionBefore (p q : Position.t) : Prop :=
  rowMajorBefore (Position.x p) (Position.y p) (Position.x q) (Position.y q).

(** As [onTrack], and the values tested at position [d] are all smaller
    than the value of [sol] there. *)
Definition onTrackBelow (sol : grid) (st : search) : Prop :=
  ∃ d, (Z.of_nat d ≤ nextIndex st)%Z ∧
       (∀ j p, j < d → unfilledPositions st !! j = Some p →
               cellAt (values (game st)) p = cellAt sol p) ∧
       (∀ p v t, unfilledPositions st !! d = Some p →
                 cellAt sol p = Some (ofZ v) →
                 t ∈ Position.valuesTested p → (t < v)%Z).

(** [g] comes first: [sol] is [g], or at the first cell, row by row, where
    the two differ, [g] has the smaller value. *)
Definition firstAmong (g sol : grid) : Prop :=
  sol = g ∨
  ∃ x y a b, cell g x y = Some (ofZ a) ∧ cell sol x y = Some (ofZ b) ∧
             (a < b)%Z ∧
             ∀ x' y', rowMajorBefore x' y' x y → cell g x' y' = cell sol x' y'.

(** * Facts about the numbers *)

Section number_facts.
Implicit Types (v w : number) (i z : Z).

Lemma strictEq_eq v w : strictEq v w = true ↔ v = w.
Proof.
  destruct v as [a f], w as [b h]. unfold strictEq. simpl.
  rewrite andb_true_iff, Z.eqb_eq, N.eqb_eq. split.
  - intros [-> ->]. done.
  - intros [= -> ->]. done.
Qed.

Lemma strictEq_ne v w : strictEq v w = false ↔ v ≠ w.
Proof.
  rewrite <- strictEq_eq. destruct (strictEq v w); split; congruence.
Qed.

Lemma strictEq_refl v : strictEq v v = true.
Proof. by apply strictEq_eq. Qed.

Lemma ofZ_inj i z : ofZ i = ofZ z ↔ i = z.
Proof. split; [by intros [= ->]|by intros ->]. Qed.

Lemma ofZ_zero i : ofZ i = zero ↔ i = 0%Z.
Proof. apply ofZ_inj. Qed.

Lemma isInteger_ofZ v : isInteger v ↔ ∃ z, v = ofZ z.
Proof.
  destruct v as [a f]. unfold isInteger, ofZ. simpl. split.
  - intros ->. by exists a.
  - intros [z [= _ ->]]. done.
Qed.

Lemma range_ofZ i :
  lessThanZero (ofZ i) = false ∧ greaterThanNine (ofZ i) = false ↔
  (0 ≤ i ≤ 9)%Z.
Proof.
  unfold lessThanZero, greaterThanNine. simpl.
  rewrite andb_false_r, orb_false_r, !Z.ltb_ge. lia.
Qed.

Lemma integer_range v :
  isInteger v → lessThanZero v = false → greaterThanNine v = false →
  ∃ z, v = ofZ z ∧ (0 ≤ z ≤ 9)%Z.
Proof.
  intros [z ->]%isInteger_ofZ Hlo Hhi. exists z. split; [done|].
  by apply range_ofZ.
Qed.
End number_facts.

(** * Facts about the matrix *)

Section grid_facts.
Implicit Types (g : grid) (x y r c : nat) (v w : number).

Lemma length_setCell g x y v : length (setCell g x y v) = length g.
Proof. apply length_alter. Qed.

Lemma rowLength_setCell g x y v r :
  rowLength (setCell g x y v) r = rowLength g r.
Proof.
  unfold rowLength, setCell. rewrite list_lookup_alter.
  case_decide; subst; [|done].
  destruct (g !! r); simpl; [apply length_insert|done].
Qed.

Lemma cell_setCell g x y v x' y' :
  cell (setCell g x y v) x' y' =
    if decide (x = x' ∧ y = y' ∧ is_Some (cell g x y)) then Some v
    else cell g x' y'.
Proof.
  destruct (decide _) as [(<- & <- & Hs)|Hn].
  - unfold cell, setCell in *. rewrite list_lookup_alter_eq.
    destruct (g !! x) as [row|]; simpl in *; [|by destruct Hs].
    apply list_lookup_insert_eq. by apply lookup_lt_is_Some.
  - unfold cell, setCell in *.
    destruct (decide (x = x')) as [<-|Hx]; [|by rewrite list_lookup_alter_ne].
    rewrite list_lookup_alter_eq.
    destruct (g !! x) as [row|]; simpl in *; [|done].
    destruct (decide (y = y')) as [<-|Hy]; [|by rewrite list_lookup_insert_ne].
    rewrite list_insert_ge; [done|].
    destruct (decide (y < length row)); [|lia].
    exfalso. apply Hn. split_and!; try done. by apply lookup_lt_is_Some.
Qed.

Lemma cell_setCell_eq g x y v :
  is_Some (cell g x y) → cell (setCell g x y v) x y = Some v.
Proof. intros H. rewrite cell_setCell, decide_True; done. Qed.

Lemma cell_setCell_ne g x y v x' y' :
  (x, y) ≠ (x', y') → cell (setCell g x y v) x' y' = cell g x' y'.
Proof.
  intros H. rewrite cell_setCell, decide_False; [done|].
  intros (-> & -> & _); done.
Qed.

(** A write outside the matrix, which the source never makes, would leave
    this model of the matrix as it is. *)
Lemma setCell_outside g x y v : cell g x y = None → setCell g x y v = g.
Proof.
  unfold cell, setCell. intros H. apply list_eq. intros i.
  rewrite list_lookup_alter. case_decide; subst; [|done].
  destruct (g !! i) as [row|]; simpl; [|done].
  rewrite list_insert_ge; [done|]. by apply lookup_ge_None.
Qed.

Lemma cell_is_Some g x y :
  is_Some (cell g x y) ↔ x < length g ∧ y < rowLength g x.
Proof.
  unfold cell, rowLength. split.
  - intros [v H]. destruct (g !! x) as [row|] eqn:Hrow; [|done].
    split; [by eapply lookup_lt_Some|]. simpl. by eapply lookup_lt_Some.
  - intros [Hx Hy]. apply lookup_lt_is_Some in Hx as [row Hrow].
    rewrite Hrow in *. simpl in Hy. by apply lookup_lt_is_Some.
Qed.

Lemma is_Some_cell_setCell g x y v x' y' :
  is_Some (cell (setCell g x y v) x' y') ↔ is_Some (cell g x' y').
Proof. by rewrite !cell_is_Some, length_setCell, rowLength_setCell. Qed.

Lemma rowCoords_setCell g x y v r :
  rowCoords (setCell g x y v) r = rowCoords g r.
Proof. unfold rowCoords. by rewrite rowLength_setCell. Qed.

Lemma columnCoords_setCell g x y v c :
  columnCoords (setCell g x y v) c = columnCoords g c.
Proof. unfold columnCoords. by rewrite length_setCell. Qed.

Lemma elem_of_rowCoords g r x y :
  (x, y) ∈ rowCoords g r ↔ x = r ∧ y < rowLength g r.
Proof.
  unfold rowCoords. rewrite list_elem_of_fmap. split.
  - intros (y' & [= -> ->] & Hy). apply elem_of_seq in Hy. lia.
  - intros [-> Hy]. exists y. split; [done|]. apply elem_of_seq. lia.
Qed.

Lemma elem_of_columnCoords g c x y :
  (x, y) ∈ columnCoords g c ↔ y = c ∧ x < length g.
Proof.
  unfold columnCoords. rewrite list_elem_of_fmap. split.
  - intros (x' & [= -> ->] & Hx). apply elem_of_seq in Hx. lia.
  - intros [-> Hx]. exists x. split; [done|]. apply elem_of_seq. lia.
Qed.

Lemma elem_of_groupCoords r c x y :
  (x, y) ∈ groupCoords r c ↔
    r / 3 * 3 ≤ x < r / 3 * 3 + 3 ∧ c / 3 * 3 ≤ y < c / 3 * 3 + 3.
Proof.
  unfold groupCoords. rewrite list_elem_of_In, in_flat_map. split.
  - intros (x' & Hx & Hy). apply list_elem_of_In, list_elem_of_fmap in Hy.
    destruct Hy as (y' & [= -> ->] & Hy).
    apply list_elem_of_In, elem_of_seq in Hx. apply elem_of_seq in Hy. lia.
  - intros [Hx Hy]. exists x. split.
    + apply list_elem_of_In, elem_of_seq. lia.
    + apply list_elem_of_In, list_elem_of_fmap. exists y. split; [done|].
      apply elem_of_seq. lia.
Qed.

Lemma groupCoords_same r c x y :
  (x, y) ∈ groupCoords r c → groupCoords x y = groupCoords r c.
Proof.
  rewrite elem_of_groupCoords. intros [Hx Hy]. unfold groupCoords.
  rewrite <- (Nat.div_unique x 3 (r / 3) (x - r / 3 * 3)) by lia.
  rewrite <- (Nat.div_unique y 3 (c / 3) (y - c / 3 * 3)) by lia.
  done.
Qed.

Lemma elem_of_groupCoords_self x y : (x, y) ∈ groupCoords x y.
Proof.
  rewrite elem_of_groupCoords.
  pose proof (Nat.div_mod_eq x 3). pose proof (Nat.mod_upper_bound x 3).
  pose proof (Nat.div_mod_eq y 3). pose proof (Nat.mod_upper_bound y 3).
  lia.
Qed.

Lemma NoDup_rowCoords g r : NoDup (rowCoords g r).
Proof. apply NoDup_fmap_2; [intros ?? [= ?]; done|apply NoDup_seq]. Qed.

Lemma NoDup_columnCoords g c : NoDup (columnCoords g c).
Proof. apply NoDup_fmap_2; [intros ?? [= ?]; done|apply NoDup_seq]. Qed.

Lemma NoDup_groupCoords r c : NoDup (groupCoords r c).
Proof.
  unfold groupCoords. generalize (r / 3 * 3) (c / 3 * 3). intros a b.
  cbn. rewrite !NoDup_cons, !elem_of_cons, !elem_of_nil.
  split_and!; try apply NoDup_nil_2; intros H;
    repeat (destruct H as [H|H]); try done; injection H; lia.
Qed.
End grid_facts.

(** * Facts about counting *)

Section count_facts.
Context {A : Type} `{EqDecision A}.
Implicit Types (f h : A → bool) (l : list A).

Lemma countWhere_app f l1 l2 :
  countWhere f (l1 ++ l2) = countWhere f l1 + countWhere f l2.
Proof. induction l1 as [|a l1 IH]; simpl; [done|]. rewrite IH. lia. Qed.

Lemma countWhere_le f h l :
  (∀ a, a ∈ l → f a = true → h a = true) →
  countWhere f l ≤ countWhere h l.
Proof.
  induction l as [|a l IH]; intros H; simpl; [done|].
  assert (countWhere f l ≤ countWhere h l) by (apply IH; intros; apply H; [by right|done]).
  destruct (f a) eqn:Hf; [|lia].
  rewrite (H a); [lia|by left|done].
Qed.

Lemma countWhere_ext f h l :
  (∀ a, a ∈ l → f a = h a) → countWhere f l = countWhere h l.
Proof.
  intros H. apply Nat.le_antisymm; apply countWhere_le; intros a Ha.
  - by rewrite H.
  - by rewrite <- H.
Qed.

Lemma countWhere_zero f l :
  countWhere f l = 0 ↔ ∀ a, a ∈ l → f a = false.
Proof.
  induction l as [|a l IH]; simpl.
  - split; [intros _ a Ha; by apply elem_of_nil in Ha|done].
  - split.
    + intros H b [->|Hb]%elem_of_cons.
      * destruct (f a); [lia|done].
      * apply IH; [lia|done].
    + intros H. rewrite (H a) by (by left).
      apply IH. intros b Hb. apply H. by right.
Qed.

Lemma countWhere_pos f l :
  0 < countWhere f l ↔ ∃ a, a ∈ l ∧ f a = true.
Proof.
  split.
  - induction l as [|a l IH]; simpl; intros H; [lia|].
    destruct (f a) eqn:Hf.
    + exists a. split; [by left|done].
    + destruct IH as (b & Hb & Hfb); [done|].
      exists b. split; [by right|done].
  - intros (a & Ha & Hf). destruct (countWhere f l) eqn:H0; [|lia].
    rewrite countWhere_zero in H0. rewrite (H0 a Ha) in Hf. done.
Qed.

(** Changing the test at one position of a duplicate-free list moves the
    count by at most one. *)
Lemma countWhere_change_one f h l a :
  NoDup l → (∀ b, b ∈ l → b ≠ a → h b = f b) →
  countWhere h l ≤ countWhere f l + 1.
Proof.
  induction l as [|b l IH]; intros Hnd H; simpl; [lia|].
  apply NoDup_cons in Hnd as [Hb Hnd].
  destruct (decide (b = a)) as [->|Hne].
  - rewrite (countWhere_ext h f l).
    + destruct (h a), (f a); lia.
    + intros c Hc. apply H; [by right|]. intros ->. done.
  - rewrite (H b) by (done || by left).
    assert (countWhere h l ≤ countWhere f l + 1); [|lia].
    apply IH; [done|]. intros c Hc. apply H. by right.
Qed.

Lemma countWhere_one f l :
  NoDup l →
  countWhere f l = 1 ↔
    ∃ a, a ∈ l ∧ f a = true ∧ ∀ b, b ∈ l → f b = true → b = a.
Proof.
  induction l as [|a l IH]; intros Hnd; simpl.
  - split; [lia|]. intros (a & Ha & _). by apply elem_of_nil in Ha.
  - apply NoDup_cons in Hnd as [Ha Hnd]. specialize (IH Hnd).
    destruct (f a) eqn:Hf.
    + split.
      * intros H. assert (countWhere f l = 0) as H0 by lia.
        rewrite countWhere_zero in H0.
        exists a. split_and!; [by left|done|].
        intros b [->|Hb]%elem_of_cons Hfb; [done|].
        rewrite (H0 b Hb) in Hfb. done.
      * intros (b & Hb & Hfb & Huniq).
        assert (countWhere f l = 0) as ->; [|done].
        apply countWhere_zero. intros c Hc.
        destruct (f c) eqn:Hfc; [|done].
        assert (c = b) as -> by (apply Huniq; [by right|done]).
        assert (a = b) as -> by (apply Huniq; [by left|done]). done.
    + simpl. rewrite IH. split.
      * intros (b & Hb & Hfb & Huniq). exists b. split_and!; [by right|done|].
        intros c [->|Hc]%elem_of_cons Hfc; [congruence|by apply Huniq].
      * intros (b & Hb & Hfb & Huniq).
        apply elem_of_cons in Hb as [->|Hb]; [congruence|].
        exists b. split_and!; [done|done|].
        intros c Hc Hfc. apply Huniq; [by right|done].
Qed.
End count_facts.

Section count_grid_facts.
Implicit Types (g : grid) (x y r c : nat) (v w : number) (U : list (nat * nat)).

Lemma cellIs_Some g w x y : cellIs g w (x, y) = true ↔ cell g x y = Some w.
Proof.
  unfold cellIs. simpl. destruct (cell g x y) as [v|]; [|done].
  rewrite strictEq_eq. split; congruence.
Qed.

Lemma cellIs_setCell_ne g x y v w p :
  p ≠ (x, y) → cellIs (setCell g x y v) w p = cellIs g w p.
Proof.
  destruct p as [x' y']. intros H. unfold cellIs. simpl.
  rewrite cell_setCell_ne; [done|congruence].
Qed.

Lemma count_setCell_other g x y v w U :
  (x, y) ∉ U →
  countWhere (cellIs (setCell g x y v) w) U = countWhere (cellIs g w) U.
Proof.
  intros H. apply countWhere_ext. intros p Hp.
  apply cellIs_setCell_ne. intros ->. done.
Qed.

Lemma count_setCell_le g x y v w U :
  w ≠ v →
  countWhere (cellIs (setCell g x y v) w) U ≤ countWhere (cellIs g w) U.
Proof.
  intros H. apply countWhere_le. intros [x' y'] _.
  rewrite !cellIs_Some, cell_setCell. case_decide; [congruence|done].
Qed.

Lemma count_setCell_le_succ g x y v w U :
  NoDup U →
  countWhere (cellIs (setCell g x y v) w) U ≤ countWhere (cellIs g w) U + 1.
Proof.
  intros H. apply (countWhere_change_one _ _ _ (x, y)); [done|].
  intros p _ Hp. by apply cellIs_setCell_ne.
Qed.
End count_grid_facts.

(** * Validation *)

Section validation_facts.
Implicit Types (g : grid) (x y r c : nat) (v w : number).

Lemma validateCells_None g x ys :
  validateCells g x ys = None ↔ ∀ y, y ∈ ys → cellRejected g x y = false.
Proof.
  induction ys as [|y ys IH]; simpl.
  - split; [intros _ y Hy; by apply elem_of_nil in Hy|done].
  - destruct (cellRejected g x y) eqn:Hr.
    + split; [done|]. intros H. rewrite H in Hr; [done|by left].
    + rewrite IH. split.
      * intros H y' [->|Hy']%elem_of_cons; [done|by apply H].
      * intros H y' Hy'. apply H. by right.
Qed.

Lemma validateCells_Some g x ys e :
  validateCells g x ys = Some e →
  ∃ y, e = ConstraintError x y ∧ y ∈ ys ∧ cellRejected g x y = true.
Proof.
  induction ys as [|y ys IH]; simpl; [done|].
  destruct (cellRejected g x y) eqn:Hr.
  - intros [= <-]. exists y. split_and!; [done|by left|done].
  - intros (y' & ? & ? & ?)%IH. exists y'. split_and!; [done|by right|done].
Qed.

Lemma validateCells_row g x :
  validateCells g x (seq 0 9) = None ↔ ∀ y, y < 9 → cellRejected g x y = false.
Proof.
  rewrite validateCells_None. split; intros H y Hy; apply H.
  - apply elem_of_seq. lia.
  - apply elem_of_seq in Hy. lia.
Qed.

Lemma validateRows_None g a n :
  validateRows g (seq a n) = None ↔ ∀ x, a ≤ x < a + n → rowAccepted g x.
Proof.
  revert a. induction n as [|n IH]; intros a; simpl.
  - split; [intros _ x Hx; lia|done].
  - destruct (rowLength g a =? 9) eqn:Hlen; simpl.
    + apply Nat.eqb_eq in Hlen. rewrite Hlen.
      destruct (validateCells g a (seq 0 9)) as [e|] eqn:Hcells.
      * split; [done|]. intros H.
        destruct (H a) as [_ Ha]; [lia|].
        apply (proj2 (validateCells_row _ _)) in Ha. congruence.
      * rewrite IH. pose proof (proj1 (validateCells_row _ _) Hcells) as Hrow. split.
        -- intros H x Hx. destruct (decide (x = a)) as [->|]; [done|].
           apply H. lia.
        -- intros H x Hx. apply H. lia.
    + apply Nat.eqb_neq in Hlen. split; [done|]. intros H.
      destruct (H a) as [Ha _]; [lia|done].
Qed.

(** The first row of the wrong length is reported only if every row
    before it was accepted. *)
Lemma validateRows_structural g a n :
  validateRows g (seq a n) = Some StructuralError ↔
    ∃ x, a ≤ x < a + n ∧ rowLength g x ≠ 9 ∧
         ∀ x', a ≤ x' < x → rowAccepted g x'.
Proof.
  revert a. induction n as [|n IH]; intros a; simpl.
  - split; [done|]. intros (x & Hx & _). lia.
  - destruct (rowLength g a =? 9) eqn:Hlen; simpl.
    + apply Nat.eqb_eq in Hlen. rewrite Hlen.
      destruct (validateCells g a (seq 0 9)) as [e|] eqn:Hcells.
      * split.
        -- intros [= ->]. apply validateCells_Some in Hcells as (? & ? & _). done.
        -- intros (x & Hx & Hbad & Hbefore).
           destruct (Hbefore a) as [_ Ha]; [|apply (proj2 (validateCells_row _ _)) in Ha; congruence].
           destruct (decide (x = a)) as [->|]; [done|lia].
      * rewrite IH. pose proof (proj1 (validateCells_row _ _) Hcells) as Hrow. split.
        -- intros (x & Hx & Hbad & Hbefore). exists x. split; [lia|]. split; [done|].
           intros x' Hx'. destruct (decide (x' = a)) as [->|]; [by split|].
           apply Hbefore. lia.
        -- intros (x & Hx & Hbad & Hbefore).
           destruct (decide (x = a)) as [->|]; [done|].
           exists x. split; [lia|]. split; [done|]. intros x' Hx'. apply Hbefore. lia.
    + apply Nat.eqb_neq in Hlen. split; [|done]. intros _.
      exists a. split; [lia|]. split; [done|]. intros x' Hx'. lia.
Qed.

Lemma validate_None g :
  validate g = None ↔ length g = 9 ∧ ∀ x, x < 9 → rowAccepted g x.
Proof.
  unfold validate. destruct (length g =? 9) eqn:Hlen; simpl.
  - apply Nat.eqb_eq in Hlen. rewrite Hlen, validateRows_None.
    split; [intros H|intros [_ H]]; [split; [done|]|]; intros x Hx; apply H; lia.
  - apply Nat.eqb_neq in Hlen. split; [done|]. intros [? _]. done.
Qed.

Lemma validate_structural g :
  validate g = Some StructuralError ↔
    length g ≠ 9 ∨
    ∃ x, x < 9 ∧ rowLength g x ≠ 9 ∧ ∀ x', x' < x → rowAccepted g x'.
Proof.
  unfold validate. destruct (length g =? 9) eqn:Hlen; simpl.
  - apply Nat.eqb_eq in Hlen. rewrite Hlen, validateRows_structural. split.
    + intros (x & Hx & Hbad & Hbefore). right. exists x.
      split; [lia|]. split; [done|]. intros x' Hx'. apply Hbefore. lia.
    + intros [?|(x & Hx & Hbad & Hbefore)]; [done|]. exists x.
      split; [lia|]. split; [done|]. intros x' Hx'. apply Hbefore. lia.
  - apply Nat.eqb_neq in Hlen. split; [by left|done].
Qed.

Lemma cellRejected_false g x y v :
  cellRejected g x y = false → cell g x y = Some v → v ≠ zero →
  (lessThanZero v = false ∧ greaterThanNine v = false) ∧
  countValueInRow g x v ≤ 1 ∧
  countValueInColumn g y v ≤ 1 ∧ countValueInGroup g x y v ≤ 1.
Proof.
  unfold cellRejected. intros H Hc Hv. rewrite Hc in H.
  apply andb_false_iff in H as [H|H].
  - apply negb_false_iff, strictEq_eq in H. done.
  - repeat (apply orb_false_iff in H as [H ?]).
    repeat match goal with
           | H : (_ <? _) = false |- _ => apply Nat.ltb_ge in H
           end.
    split_and!; try done; lia.
Qed.

Lemma validate_consistent g : validate g = None → consistent g.
Proof.
  intros [Hlen Hrows]%validate_None.
  assert (∀ x y v, cell g x y = Some v → v ≠ zero →
            (lessThanZero v = false ∧ greaterThanNine v = false) ∧
            countValueInRow g x v ≤ 1 ∧
            countValueInColumn g y v ≤ 1 ∧ countValueInGroup g x y v ≤ 1) as Hcell.
  { intros x y v Hv Hne.
    assert (is_Some (cell g x y)) as [Hx Hy]%cell_is_Some by eauto.
    destruct (Hrows x) as [Hrow Hacc]; [lia|].
    apply (cellRejected_false g x y v); [apply Hacc; lia|done|done]. }
  split.
  - split; [done|]. intros x Hx. by apply Hrows.
  - intros x y v Hv. destruct (decide (v = zero)) as [->|Hne]; [done|].
    destruct (Hcell x y v) as [? _]; done.
  - intros r v Hv. unfold countValueInRow.
    destruct (decide (0 < countWhere (cellIs g v) (rowCoords g r))) as [Hpos|]; [|lia].
    apply countWhere_pos in Hpos as ([x y] & Hin & His).
    apply elem_of_rowCoords in Hin as [-> _]. apply cellIs_Some in His.
    by apply (Hcell r y v).
  - intros c v Hv. unfold countValueInColumn.
    destruct (decide (0 < countWhere (cellIs g v) (columnCoords g c))) as [Hpos|]; [|lia].
    apply countWhere_pos in Hpos as ([x y] & Hin & His).
    apply elem_of_columnCoords in Hin as [-> _]. apply cellIs_Some in His.
    by apply (Hcell x c v).
  - intros r c v Hv. unfold countValueInGroup.
    destruct (decide (0 < countWhere (cellIs g v) (groupCoords r c))) as [Hpos|]; [|lia].
    apply countWhere_pos in Hpos as ([x y] & Hin & His).
    apply groupCoords_same in Hin. apply cellIs_Some in His.
    rewrite <- Hin. by apply (Hcell x y v).
Qed.
End validation_facts.

(** * Every write keeps the matrix consistent *)

Section consistency.
Implicit Types (g : grid) (s : sudoku) (x y r c : nat) (v w : number) (i : Z).

Lemma valid_counts g x y v b :
  isValueValidInPosition g x y v b = true →
  countValueInRow g x v = 0 ∧ countValueInColumn g y v = 0 ∧
  countValueInGroup g x y v = 0.
Proof.
  unfold isValueValidInPosition, isValuePresentInRow, isValuePresentInColumn,
    isValuePresentInGroup.
  rewrite !andb_true_iff, !negb_true_iff, !Nat.ltb_ge. lia.
Qed.

Lemma candidates_range i : In i candidates → (1 ≤ i ≤ 9)%Z.
Proof. unfold candidates. simpl. lia. Qed.

Lemma is9x9_setCell g x y v : is9x9 g → is9x9 (setCell g x y v).
Proof.
  intros [Hlen Hrows]. split; [by rewrite length_setCell|].
  intros r Hr. rewrite rowLength_setCell. by apply Hrows.
Qed.

Lemma consistent_write g x y w :
  consistent g → lessThanZero w = false → greaterThanNine w = false →
  countValueInRow g x w = 0 → countValueInColumn g y w = 0 →
  countValueInGroup g x y w = 0 →
  consistent (setCell g x y w).
Proof.
  intros [Hshape Hrange Hrow Hcol Hgroup] Hlo Hhi Hr0 Hc0 Hg0. split.
  - by apply is9x9_setCell.
  - intros x' y' v. rewrite cell_setCell. case_decide; [|by apply Hrange].
    intros [= <-]. done.
  - intros r v Hv. unfold countValueInRow in *. rewrite rowCoords_setCell.
    destruct (decide (v = w)) as [->|Hne];
      [|etrans; [by apply count_setCell_le|by apply Hrow]].
    destruct (decide (r = x)) as [->|Hrx].
    + etrans; [apply count_setCell_le_succ, NoDup_rowCoords|lia].
    + rewrite count_setCell_other; [by apply Hrow|].
      rewrite elem_of_rowCoords. intros [? _]. done.
  - intros c v Hv. unfold countValueInColumn in *. rewrite columnCoords_setCell.
    destruct (decide (v = w)) as [->|Hne];
      [|etrans; [by apply count_setCell_le|by apply Hcol]].
    destruct (decide (c = y)) as [->|Hcy].
    + etrans; [apply count_setCell_le_succ, NoDup_columnCoords|lia].
    + rewrite count_setCell_other; [by apply Hcol|].
      rewrite elem_of_columnCoords. intros [? _]. done.
  - intros r c v Hv. unfold countValueInGroup in *.
    destruct (decide (v = w)) as [->|Hne];
      [|etrans; [by apply count_setCell_le|by apply Hgroup]].
    destruct (decide ((x, y) ∈ groupCoords r c)) as [Hin|Hout].
    + rewrite <- (groupCoords_same _ _ _ _ Hin).
      etrans; [apply count_setCell_le_succ, NoDup_groupCoords|lia].
    + rewrite count_setCell_other; [by apply Hgroup|done].
Qed.

Lemma consistent_clear g x y : consistent g → consistent (setCell g x y zero).
Proof.
  intros [Hshape Hrange Hrow Hcol Hgroup]. split.
  - by apply is9x9_setCell.
  - intros x' y' v. rewrite cell_setCell. case_decide; [|by apply Hrange].
    intros [= <-]. done.
  - intros r v Hv. unfold countValueInRow in *. rewrite rowCoords_setCell.
    etrans; [by apply count_setCell_le|by apply Hrow].
  - intros c v Hv. unfold countValueInColumn in *. rewrite columnCoords_setCell.
    etrans; [by apply count_setCell_le|by apply Hcol].
  - intros r c v Hv. unfold countValueInGroup in *.
    etrans; [by apply count_setCell_le|by apply Hgroup].
Qed.

Lemma consistent_place g x y i b :
  consistent g → In i candidates →
  isValueValidInPosition g x y (ofZ i) b = true →
  consistent (setCell g x y (ofZ i)).
Proof.
  intros Hg Hi%candidates_range (? & ? & ?)%valid_counts.
  assert (0 ≤ i ≤ 9)%Z as [? ?]%range_ofZ by lia.
  by apply consistent_write.
Qed.

Lemma sweepCell_consistent acc x y :
  consistent (values acc.1) → consistent (values (sweepCell acc x y).1).
Proof.
  intros Hg. unfold sweepCell.
  destruct (cellIs (values acc.1) zero (x, y)); [|done].
  destruct (find _ candidates) as [i|] eqn:Hfind; [|done].
  apply find_some in Hfind as [Hi Hvalid]. simpl.
  by eapply consistent_place.
Qed.

Lemma sweepRow_consistent acc x :
  consistent (values acc.1) → consistent (values (sweepRow acc x).1).
Proof.
  unfold sweepRow. generalize (seq 0 (rowLength (values acc.1) x)). intros ys.
  revert acc. induction ys as [|y ys IH]; intros acc Hg; simpl; [done|].
  by apply IH, sweepCell_consistent.
Qed.

Lemma sweep_consistent s :
  consistent (values s) → consistent (values (sweep s).1).
Proof.
  unfold sweep. generalize (seq 0 (length (values s))). intros xs.
  change (values s) with (values (s, false).1) at 1.
  generalize (s, false). intros acc. revert acc.
  induction xs as [|x xs IH]; intros acc Hg; simpl; [done|].
  by apply IH, sweepRow_consistent.
Qed.

Lemma propagate_consistent fuel s :
  consistent (values s) → consistent (values (propagate fuel s).2).
Proof.
  revert s. induction fuel as [|fuel IH]; intros s Hg; simpl.
  - by destruct (isSolved (values s)).
  - destruct (isSolved (values s)); [done|].
    pose proof (sweep_consistent s Hg).
    destruct (sweep s).2; [by apply IH|done].
Qed.

Lemma step_consistent st :
  consistent (values (game st)) → consistent (values (gameAfter (step st))).
Proof.
  intros Hg. unfold step.
  destruct (_ <? _)%Z; [done|].
  destruct (arrayGet _ _) as [p|]; [|done].
  pose proof (consistent_clear _ (Position.x p) (Position.y p) Hg) as Hg1.
  destruct (firstUntested _ p) as [i|] eqn:Hfind.
  - apply find_some in Hfind as [Hi [_ Hvalid]%andb_true_iff]. simpl.
    by eapply consistent_place.
  - destruct (negb _); simpl; [by apply consistent_clear|done].
Qed.

Lemma searchLoop_consistent fuel st :
  consistent (values (game st)) → consistent (values (searchLoop fuel st).2).
Proof.
  revert st. induction fuel as [|fuel IH]; intros st Hg; simpl; [done|].
  pose proof (step_consistent st Hg) as Hstep.
  destruct (step st); simpl in *; [by apply IH|done..].
Qed.

Lemma solve_consistent fuel s :
  consistent (values s) → consistent (values (solve fuel s).2).
Proof.
  intros Hg. unfold solve.
  pose proof (propagate_consistent fuel s Hg) as Hp.
  destruct (propagate fuel s) as [[] s1]; simpl in *; try done.
  destruct (negb _); [|done].
  by apply searchLoop_consistent.
Qed.
End consistency.

(** * A complete consistent matrix is a solution *)

Section completeness.
Implicit Types (g : grid) (s : sudoku) (x y r c : nat) (v w : number) (i : Z).
Implicit Types (U : list (nat * nat)).

Lemma isSolved_cell g x y v : isSolved g = true → cell g x y = Some v → v ≠ zero.
Proof.
  unfold isSolved, cell. intros H Hc.
  destruct (g !! x) as [row|] eqn:Hrow; [|done].
  rewrite forallb_forall in H.
  specialize (H row). rewrite forallb_forall in H.
  assert (negb (strictEq v zero) = true) as Hv.
  { apply H; apply list_elem_of_In; by eapply list_elem_of_lookup_2. }
  apply negb_true_iff, strictEq_ne in Hv. done.
Qed.

(** Over positions that all hold an integer from 1 to 9, the nine counts add
    up to the number of positions. *)
Lemma counts_total g U :
  (∀ p, p ∈ U → ∃ i, cell g p.1 p.2 = Some (ofZ i) ∧ (1 ≤ i ≤ 9)%Z) →
  countWhere (cellIs g (ofZ 1)) U + countWhere (cellIs g (ofZ 2)) U +
  countWhere (cellIs g (ofZ 3)) U + countWhere (cellIs g (ofZ 4)) U +
  countWhere (cellIs g (ofZ 5)) U + countWhere (cellIs g (ofZ 6)) U +
  countWhere (cellIs g (ofZ 7)) U + countWhere (cellIs g (ofZ 8)) U +
  countWhere (cellIs g (ofZ 9)) U = length U.
Proof.
  induction U as [|p U IH]; intros H; [done|].
  assert (IH' := IH (λ q Hq, H q (proj2 (elem_of_cons _ _ _) (or_intror Hq)))). clear IH.
  destruct (H p) as (i & Hi & Hrange); [by left|].
  cbn [countWhere length]. unfold cellIs at 1 3 5 7 9 11 13 15 17.
  rewrite Hi.
  assert (i = 1 ∨ i = 2 ∨ i = 3 ∨ i = 4 ∨ i = 5 ∨ i = 6 ∨ i = 7 ∨ i = 8 ∨ i = 9)%Z
    as Hcases by lia.
  repeat (destruct Hcases as [->|Hcases]); try subst i;
    cbn [strictEq ofZ whole frac Z.eqb Pos.eqb N.eqb andb]; lia.
Qed.

Lemma each_value_once g U i :
  length U = 9 →
  (∀ p, p ∈ U → ∃ i, cell g p.1 p.2 = Some (ofZ i) ∧ (1 ≤ i ≤ 9)%Z) →
  (∀ w, w ≠ zero → countWhere (cellIs g w) U ≤ 1) →
  (1 ≤ i ≤ 9)%Z → countWhere (cellIs g (ofZ i)) U = 1.
Proof.
  intros Hlen Hcells Hle Hi. pose proof (counts_total g U Hcells) as Hsum.
  assert (∀ z, (1 ≤ z ≤ 9)%Z → countWhere (cellIs g (ofZ z)) U ≤ 1) as Hle'.
  { intros z Hz. apply Hle. rewrite ofZ_zero. lia. }
  pose proof (Hle' 1%Z). pose proof (Hle' 2%Z). pose proof (Hle' 3%Z).
  pose proof (Hle' 4%Z). pose proof (Hle' 5%Z). pose proof (Hle' 6%Z).
  pose proof (Hle' 7%Z). pose proof (Hle' 8%Z). pose proof (Hle' 9%Z).
  assert (i = 1 ∨ i = 2 ∨ i = 3 ∨ i = 4 ∨ i = 5 ∨ i = 6 ∨ i = 7 ∨ i = 8 ∨ i = 9)%Z
    as Hcases by lia.
  repeat (destruct Hcases as [->|Hcases]); try subst i; lia.
Qed.

Lemma filled_cell g x y :
  consistent g → integral g → isSolved g = true → x < 9 → y < 9 →
  ∃ i, cell g x y = Some (ofZ i) ∧ (1 ≤ i ≤ 9)%Z.
Proof.
  intros Hg Hint Hs Hx Hy. destruct Hg as [[Hlen Hrows] Hrange _ _ _].
  destruct (proj2 (cell_is_Some g x y)) as [w Hw].
  { rewrite Hlen, Hrows by done. done. }
  destruct (Hrange _ _ _ Hw) as [Hlo Hhi].
  destruct (integer_range w (Hint _ _ _ Hw) Hlo Hhi) as (i & -> & Hi).
  exists i. split; [done|].
  pose proof (isSolved_cell _ _ _ _ Hs Hw) as Hne. rewrite ofZ_zero in Hne. lia.
Qed.

Lemma complete_units g r c i :
  consistent g → integral g → isSolved g = true →
  r < 9 → c < 9 → (1 ≤ i ≤ 9)%Z →
  countValueInRow g r (ofZ i) = 1 ∧ countValueInColumn g c (ofZ i) = 1 ∧
  countValueInGroup g r c (ofZ i) = 1.
Proof.
  intros Hg Hint Hs Hr Hc Hi. pose proof Hg as [[Hlen Hrows] _ Hrow Hcol Hgroup].
  split_and!.
  - apply each_value_once; [| |intros w Hw; by apply Hrow|done].
    + unfold rowCoords. rewrite length_fmap, length_seq. by apply Hrows.
    + intros [x y] [-> Hy]%elem_of_rowCoords. rewrite Hrows in Hy by done.
      by apply filled_cell.
  - apply each_value_once; [| |intros w Hw; by apply Hcol|done].
    + unfold columnCoords. by rewrite length_fmap, length_seq.
    + intros [x y] [-> Hx]%elem_of_columnCoords. rewrite Hlen in Hx.
      by apply filled_cell.
  - apply each_value_once; [done| |intros w Hw; by apply Hgroup|done].
    intros [x y] [Hx Hy]%elem_of_groupCoords.
    pose proof (Nat.div_mod_eq r 3). pose proof (Nat.mod_upper_bound r 3).
    pose proof (Nat.div_mod_eq c 3). pose proof (Nat.mod_upper_bound c 3).
    apply filled_cell; [done|done|done|simpl; lia|simpl; lia].
Qed.
End completeness.

(** * The writes of [solve] are integers *)

Section integrality.
Implicit Types (g : grid) (s : sudoku) (x y : nat) (v w : number) (i : Z).

(** A property of the matrix that every write of an integer keeps is kept by
    [solve]. *)
Lemma solve_preserves (P : grid → Prop) fuel s :
  (∀ g x y i, P g → P (setCell g x y (ofZ i))) →
  P (values s) → P (values (solve fuel s).2).
Proof.
  intros Hset.
  assert (∀ acc x y, P (values acc.1) → P (values (sweepCell acc x y).1))
    as HsweepCell.
  { intros acc x y Hg. unfold sweepCell.
    destruct (cellIs (values acc.1) zero (x, y)); [|done].
    destruct (find _ candidates) as [i|]; [|done]. simpl. by apply Hset. }
  assert (∀ acc x, P (values acc.1) → P (values (sweepRow acc x).1))
    as HsweepRow.
  { intros acc x. unfold sweepRow.
    generalize (seq 0 (rowLength (values acc.1) x)). intros ys.
    revert acc. induction ys as [|y ys IH]; intros acc Hg; simpl; [done|].
    by apply IH, HsweepCell. }
  assert (∀ s, P (values s) → P (values (sweep s).1)) as Hsweep.
  { intros s0. unfold sweep. generalize (seq 0 (length (values s0))). intros xs.
    change (values s0) with (values (s0, false).1) at 1.
    generalize (s0, false). intros acc. revert acc.
    induction xs as [|x xs IH]; intros acc Hg; simpl; [done|].
    by apply IH, HsweepRow. }
  assert (∀ fuel s, P (values s) → P (values (propagate fuel s).2))
    as Hpropagate.
  { intros n. induction n as [|n IH]; intros s0 Hg; simpl.
    - by destruct (isSolved (values s0)).
    - destruct (isSolved (values s0)); [done|].
      pose proof (Hsweep s0 Hg).
      destruct (sweep s0).2; [by apply IH|done]. }
  assert (∀ st, P (values (game st)) → P (values (gameAfter (step st))))
    as Hstep.
  { intros st Hg. unfold step.
    destruct (_ <? _)%Z; [done|].
    destruct (arrayGet _ _) as [p|]; [|done].
    pose proof (Hset _ (Position.x p) (Position.y p) 0%Z Hg) as Hg1.
    destruct (firstUntested _ p) as [i|]; simpl; [by apply Hset|].
    destruct (negb _); simpl; [by apply (Hset _ _ _ 0%Z)|done]. }
  assert (∀ fuel st, P (values (game st)) → P (values (searchLoop fuel st).2))
    as Hsearch.
  { intros n. induction n as [|n IH]; intros st Hg; simpl; [done|].
    pose proof (Hstep st Hg) as Hst.
    destruct (step st); simpl in *; [by apply IH|done..]. }
  intros Hg. unfold solve.
  pose proof (Hpropagate fuel s Hg) as Hp.
  destruct (propagate fuel s) as [[] s1]; simpl in *; try done.
  destruct (negb _); [|done].
  by apply Hsearch.
Qed.

Lemma integral_setCell g x y v :
  integral g → isInteger v → integral (setCell g x y v).
Proof.
  intros Hg Hv x' y' w. rewrite cell_setCell. case_decide; [|by apply Hg].
  by intros [= <-].
Qed.

Lemma solve_integral fuel s :
  integral (values s) → integral (values (solve fuel s).2).
Proof.
  apply (solve_preserves integral). intros g x y i Hg.
  by apply integral_setCell.
Qed.

Lemma integral_ofRows rows : integral (ofRows rows).
Proof.
  intros x y v. unfold cell, ofRows.
  rewrite list_lookup_fmap. destruct (rows !! x) as [row|]; [|done]. simpl.
  rewrite list_lookup_fmap. destruct (row !! y) as [z|]; [|done]. simpl.
  by intros [= <-].
Qed.

Lemma integral_emptyGrid : integral emptyGrid.
Proof.
  intros x y v Hv.
  assert (is_Some (cell emptyGrid x y)) as [Hx Hy]%cell_is_Some by eauto.
  simpl in Hx.
  do 9 (destruct x as [|x]; [do 9 (destruct y as [|y];
    [vm_compute in Hv; by injection Hv as <-|]); vm_compute in Hy; lia|]).
  lia.
Qed.
End integrality.

(** C1, as stated, fails: the matrix that holds 1.5 in its first cell and 0
    everywhere else is accepted by the constructor, [solve] returns with
    the matrix complete, and row 0 of the result holds no 9 (its first cell
    still holds 1.5). *)
Lemma solve_complete_is_solution_counterexample :
  Sudoku halfGrid = inr halfGame ∧
  (solve 2000 halfGame).1 = Returned ∧
  isSolved (values (solve 2000 halfGame).2) = true ∧
  cell (values (solve 2000 halfGame).2) 0 0 = Some oneAndHalf ∧
  countValueInRow (values (solve 2000 halfGame).2) 0 (ofZ 9) = 0.
Proof. vm_compute. done. Qed.

(** C1, amended.  For a matrix accepted by the constructor whose cells are
    all integers, whenever the matrix is complete ([isSolved]) after
    [solve], every row, every column and every 3 by 3 group holds each of
    the values 1 to 9 exactly once. *)
Theorem solve_complete_is_solution (m : grid) (s : sudoku) (fuel : nat)
    (r c : nat) (v : Z) :
  Sudoku m = inr s → integral m →
  isSolved (values (solve fuel s).2) = true →
  r < 9 → c < 9 → (1 ≤ v ≤ 9)%Z →
  countValueInRow (values (solve fuel s).2) r (ofZ v) = 1 ∧
  countValueInColumn (values (solve fuel s).2) c (ofZ v) = 1 ∧
  countValueInGroup (values (solve fuel s).2) r c (ofZ v) = 1.
Proof.
  unfold Sudoku. destruct (validate m) eqn:Hvalid; [done|].
  intros [= <-] Hint Hsolved Hr Hc Hv.
  apply complete_units; try done.
  - apply solve_consistent. simpl. by apply validate_consistent.
  - by apply solve_integral.
Qed.

Lemma integral_cornerGrid : integral cornerGrid.
Proof.
  unfold cornerGrid.
  repeat apply integral_setCell; [apply integral_emptyGrid|by apply isInteger_ofZ; eexists..].
Qed.

Lemma solve_complete_is_solution_witness :
  (solve 2000 cornerGame).1 = Returned ∧
  countValueInRow (values (solve 2000 cornerGame).2) 4 (ofZ 5) = 1 ∧
  countValueInColumn (values (solve 2000 cornerGame).2) 7 (ofZ 5) = 1 ∧
  countValueInGroup (values (solve 2000 cornerGame).2) 4 7 (ofZ 5) = 1.
Proof.
  split; [vm_compute; reflexivity|].
  apply (solve_complete_is_solution cornerGrid cornerGame 2000 4 7 5);
    [vm_compute; reflexivity|apply integral_cornerGrid
    |vm_compute; reflexivity|lia..].
Defined.

(** * Claims about construction *)

(** C3, as stated, fails: with value 5 in columns 0 and 1 of row 0 the
    coordinate reported is that of the first 5, not of the second. *)
Lemma two_fives_reports_first_counterexample :
  Sudoku fivesGrid = inl (ConstraintError 0 0) ∧
  Sudoku fivesGrid ≠ inl (ConstraintError 0 1).
Proof. split; [vm_compute; reflexivity|vm_compute; discriminate]. Qed.

(** C3, amended.  For the 9 by 9 matrix that is 0 everywhere except for the
    value 5 in two cells of row 0, construction fails with the constraint
    error whose coordinate is that of the first (lower column) of the two:
    [validate] counts the occurrences in the whole row, so the first 5 it
    visits is already counted twice. *)
Theorem two_fives_reports_first (c1 c2 : nat) :
  c1 < c2 < 9 → Sudoku (twoFives c1 c2) = inl (ConstraintError 0 c1).
Proof.
  intros H.
  do 9 (destruct c1 as [|c1];
        [do 9 (destruct c2 as [|c2]; [try lia; vm_compute; reflexivity|]); lia|]).
  lia.
Qed.

Lemma two_fives_reports_first_witness :
  2 < 5 < 9 ∧ Sudoku (twoFives 2 5) = inl (ConstraintError 0 2).
Proof. split; [lia|apply (two_fives_reports_first 2 5); lia]. Defined.

(** C6, as stated, fails: a matrix that is not 9 by 9 (its last row has three
    cells) on which construction fails with a constraint error, because the
    duplicate in row 0 is met before the length of row 8 is looked at. *)
Lemma structural_iff_counterexample :
  ¬ is9x9 raggedGrid ∧
  Sudoku raggedGrid = inl (ConstraintError 0 0) ∧
  ¬ (Sudoku raggedGrid = inl StructuralError ↔ ¬ is9x9 raggedGrid).
Proof.
  assert (¬ is9x9 raggedGrid) as Hshape.
  { intros [_ H]. specialize (H 8). vm_compute in H. lia. }
  assert (Sudoku raggedGrid = inl (ConstraintError 0 0)) as Hfail
    by (vm_compute; reflexivity).
  split_and!; [done..|].
  rewrite Hfail. intros [_ H]. specialize (H Hshape). discriminate.
Qed.

(** C6, amended.  Construction fails with the structural error if and only
    if the matrix does not have 9 rows, or it has 9 rows, one of them is not
    of length 9, and all rows before the first such row pass the check of
    their cells.  A matrix that is not 9 by 9 is never accepted, and a 9 by 9
    matrix can only fail with a constraint error. *)
Theorem structural_error_iff (m : grid) :
  (Sudoku m = inl StructuralError ↔
     length m ≠ 9 ∨
     ∃ x, x < 9 ∧ rowLength m x ≠ 9 ∧ ∀ x', x' < x → rowAccepted m x') ∧
  (¬ is9x9 m → ∃ e, Sudoku m = inl e) ∧
  (is9x9 m → ∀ e, Sudoku m = inl e → ∃ x y, e = ConstraintError x y).
Proof.
  assert (∀ e, Sudoku m = inl e ↔ validate m = Some e) as HS.
  { intros e. unfold Sudoku. destruct (validate m); split; congruence. }
  split_and!.
  - rewrite HS. apply validate_structural.
  - intros Hshape. destruct (validate m) as [e|] eqn:Hv.
    + exists e. by apply HS.
    + apply validate_None in Hv as [Hlen Hrows]. destruct Hshape.
      split; [done|]. intros x Hx. by apply Hrows.
  - intros [Hlen Hrows] [|x y] He; [|by eauto].
    apply HS, validate_structural in He as [?|(x & Hx & Hbad & _)]; [done|].
    destruct Hbad. by apply Hrows.
Qed.

Lemma structural_error_iff_witness :
  Sudoku (take 8 emptyGrid) = inl StructuralError ∧
  ∃ e, Sudoku raggedGrid = inl e.
Proof.
  split.
  - apply (structural_error_iff (take 8 emptyGrid)). left. vm_compute. lia.
  - apply (structural_error_iff raggedGrid).
    intros [_ H]. specialize (H 8). vm_compute in H. lia.
Defined.

(** * Claims settled by evaluating or unfolding [solve] *)

(** C2.  On [deadEndGrid], which the constructor accepts, the last cell of
    row 0 admits no value: the search moves its cursor from 0 to -1 and the
    next iteration reads [unfilledPositions[-1].x], a [TypeError].  [solve]
    does not return normally. *)
Theorem solve_dead_end_throws :
  Sudoku deadEndGrid = inr deadEndGame ∧
  ∀ fuel,
    (solve (2 + fuel) deadEndGame).1 = Threw ∧
    isSolved (values (solve (2 + fuel) deadEndGame).2) = false.
Proof.
  split; [vm_compute; reflexivity|].
  intros fuel. split; vm_compute; reflexivity.
Qed.

(** C8.  On a matrix that is already complete, [solve] makes no write, so
    no cell changes, and the matrix is complete afterwards. *)
Theorem solve_complete_noop (s : sudoku) (fuel : nat) :
  isSolved (values s) = true →
  solve fuel s = (Returned, s) ∧ isSolved (values (solve fuel s).2) = true.
Proof.
  intros H.
  assert (propagate fuel s = (Returned, s)) as Hp.
  { destruct fuel; simpl; by rewrite H. }
  assert (solve fuel s = (Returned, s)) as Hs.
  { unfold solve. rewrite Hp, H. done. }
  by rewrite Hs.
Qed.

Lemma solve_complete_noop_witness :
  solve 0 {| values := solved1; writes := [] |} =
    (Returned, {| values := solved1; writes := [] |}) ∧
  isSolved (values (solve 0 {| values := solved1; writes := [] |}).2) = true.
Proof.
  apply (solve_complete_noop {| values := solved1; writes := [] |} 0).
  vm_compute. reflexivity.
Defined.

(** * The search loop, step by step *)

Section search_facts.
Implicit Types (g : grid) (s : sudoku) (st : search) (p q : Position.t).
Implicit Types (k j n : nat) (i v : Z).

(** The three ways an iteration can go. *)
Lemma step_inversion st :
  (step st = Break (game st) ∧
   (Z.of_nat (length (unfilledPositions st)) ≤ nextIndex st)%Z) ∨
  (step st = TypeError (game st) ∧ (nextIndex st < 0)%Z) ∨
  (∃ k p, nextIndex st = Z.of_nat k ∧ unfilledPositions st !! k = Some p ∧
     let st1 := clearCurrent st p in
     (∃ i, firstUntested (values (game st1)) p = Some i ∧
           step st = Continue (accept st1 p i)) ∨
     (firstUntested (values (game st1)) p = None ∧
      isSolved (values (game st1)) = false ∧
      step st = Continue (goBack st1 p)) ∨
     (firstUntested (values (game st1)) p = None ∧
      isSolved (values (game st1)) = true ∧
      step st = Continue st1)).
Proof.
  unfold step.
  destruct (_ <? _)%Z eqn:Hend.
  { left. apply Z.ltb_lt in Hend. split; [done|lia]. }
  apply Z.ltb_ge in Hend. right. unfold arrayGet.
  destruct (nextIndex st <? 0)%Z eqn:Hneg.
  { left. apply Z.ltb_lt in Hneg. done. }
  apply Z.ltb_ge in Hneg. right.
  exists (Z.to_nat (nextIndex st)).
  destruct (unfilledPositions st !! Z.to_nat (nextIndex st)) as [p|] eqn:Hp.
  2:{ apply lookup_ge_None in Hp. lia. }
  exists p. split_and!; [lia|done|]. cbv zeta.
  destruct (firstUntested _ p) as [i|]; [left; eauto|].
  right. destruct (isSolved _); simpl; [right|left]; done.
Qed.

Lemma isSolved_setCell_zero g x y :
  is_Some (cell g x y) → isSolved (setCell g x y zero) = false.
Proof.
  intros H. destruct (isSolved _) eqn:Hs; [|done].
  pose proof (cell_setCell_eq g x y zero H) as Hc.
  by destruct (isSolved_cell _ _ _ _ Hs Hc).
Qed.

Lemma firstUntested_Some g p i :
  firstUntested g p = Some i →
  In i candidates ∧ (i ∉ Position.valuesTested p) ∧
  isValueValidInPosition g (Position.x p) (Position.y p) (ofZ i) false = true.
Proof.
  unfold firstUntested. intros [Hi [Ht Hv]%andb_true_iff]%find_some.
  split_and!; [done| |done].
  apply negb_true_iff in Ht. unfold isValueTested in Ht.
  intros Hin. apply not_true_iff_false in Ht. apply Ht.
  apply existsb_exists. exists i. split; [by apply list_elem_of_In|].
  apply Z.eqb_refl.
Qed.

Lemma distinct_coords st j k p q :
  NoDup (coords <$> unfilledPositions st) →
  unfilledPositions st !! j = Some q → unfilledPositions st !! k = Some p →
  j ≠ k → coords q ≠ coords p.
Proof.
  intros Hnd Hq Hp Hjk Heq. apply Hjk.
  eapply (NoDup_lookup _ j k (coords p) Hnd).
  - rewrite list_lookup_fmap, Hq. simpl. congruence.
  - by rewrite list_lookup_fmap, Hp.
Qed.

Lemma coords_insert st k p t :
  unfilledPositions st !! k = Some p →
  coords <$> <[k := Position.mk (Position.x p) (Position.y p) t]> (unfilledPositions st)
  = coords <$> unfilledPositions st.
Proof.
  intros Hp. rewrite list_fmap_insert. apply list_insert_id.
  by rewrite list_lookup_fmap, Hp.
Qed.

Lemma searchInv_clear st k p :
  searchInv st → nextIndex st = Z.of_nat k →
  unfilledPositions st !! k = Some p → searchInv (clearCurrent st p).
Proof.
  intros [Hin Ht Hd Hh] Hk Hp. split; simpl; try done.
  - eapply Forall_impl; [exact Hin|]. intros q Hq. unfold cellAt.
    by apply is_Some_cell_setCell.
  - intros j q Hj Hq. destruct (Hh j q Hj Hq) as (v & Hv & Hvt).
    exists v. split; [|done]. unfold cellAt in *.
    rewrite cell_setCell_ne; [done|].
    apply not_eq_sym. apply (distinct_coords st j k p q); [done..|lia].
Qed.

Lemma searchInv_accept st k p i :
  searchInv st → nextIndex st = Z.of_nat k →
  unfilledPositions st !! k = Some p →
  In i candidates → i ∉ Position.valuesTested p →
  searchInv (accept st p i).
Proof.
  intros [Hin Ht Hd Hh] Hk Hp Hi Hnew.
  pose proof (Forall_lookup_1 _ _ _ _ Hin Hp) as Hpin.
  pose proof (Forall_lookup_1 _ _ _ _ Ht Hp) as [Hpnd Hpc].
  unfold accept. rewrite Hk, Nat2Z.id. split; simpl.
  - apply Forall_insert.
    + eapply Forall_impl; [exact Hin|]. intros q Hq. unfold cellAt.
      by apply is_Some_cell_setCell.
    + unfold cellAt in *. simpl. by apply is_Some_cell_setCell.
  - apply Forall_insert; [done|]. simpl. split.
    + apply NoDup_app. split_and!; [done| |apply NoDup_singleton].
      intros v Hv ->%list_elem_of_singleton. done.
    + intros v [Hv| ->%list_elem_of_singleton]%elem_of_app; [by apply Hpc|done].
  - by rewrite coords_insert.
  - intros j q Hj Hq. destruct (decide (j = k)) as [->|Hjk].
    + rewrite list_lookup_insert_eq in Hq by (by eapply lookup_lt_Some).
      injection Hq as <-. exists i. unfold cellAt. simpl. split.
      * by apply cell_setCell_eq.
      * apply elem_of_app. right. by apply list_elem_of_singleton.
    + rewrite list_lookup_insert_ne in Hq by done.
      destruct (Hh j q) as (v & Hv & Hvt); [lia|done|].
      exists v. split; [|done]. unfold cellAt in *.
      rewrite cell_setCell_ne; [done|].
      apply not_eq_sym. by apply (distinct_coords st j k p q).
Qed.

Lemma searchInv_goBack st k p :
  searchInv st → nextIndex st = Z.of_nat k →
  unfilledPositions st !! k = Some p → searchInv (goBack st p).
Proof.
  intros [Hin Ht Hd Hh] Hk Hp.
  pose proof (Forall_lookup_1 _ _ _ _ Hin Hp) as Hpin.
  unfold goBack. rewrite Hk, Nat2Z.id. split; simpl.
  - apply Forall_insert.
    + eapply Forall_impl; [exact Hin|]. intros q Hq. unfold cellAt.
      by apply is_Some_cell_setCell.
    + unfold cellAt in *. simpl. by apply is_Some_cell_setCell.
  - apply Forall_insert; [done|]. simpl. split; [apply NoDup_nil_2|].
    intros v Hv. by apply elem_of_nil in Hv.
  - by rewrite coords_insert.
  - intros j q Hj Hq.
    rewrite list_lookup_insert_ne in Hq by lia.
    destruct (Hh j q) as (v & Hv & Hvt); [lia|done|].
    exists v. split; [|done]. unfold cellAt in *.
    rewrite cell_setCell_ne; [done|].
    apply not_eq_sym. apply (distinct_coords st j k p q); [done..|lia].
Qed.

(** In a state that satisfies the invariant, an iteration that goes on
    either accepts a value or goes back; the invariant and the length of
    the list of positions are kept. *)
Lemma step_searchInv st st' :
  searchInv st → step st = Continue st' →
  ∃ k p, nextIndex st = Z.of_nat k ∧ unfilledPositions st !! k = Some p ∧
    searchInv st' ∧
    ((∃ i, firstUntested (values (game (clearCurrent st p))) p = Some i ∧
           st' = accept (clearCurrent st p) p i) ∨
     (firstUntested (values (game (clearCurrent st p))) p = None ∧
      st' = goBack (clearCurrent st p) p)).
Proof.
  intros Hinv Hstep.
  destruct (step_inversion st) as [[Hs _]|[[Hs _]|(k & p & Hk & Hp & Hcases)]];
    [congruence..|].
  exists k, p. split_and!; [done..| |].
  - pose proof (searchInv_clear st k p Hinv Hk Hp) as Hinv1.
    destruct Hcases as [(i & Hf & Hs)|[(Hf & Hsol & Hs)|(Hf & Hsol & Hs)]];
      rewrite Hs in Hstep; injection Hstep as <-; [| |done].
    + apply firstUntested_Some in Hf as (Hi & Hnew & _).
      by apply (searchInv_accept _ k).
    + by apply (searchInv_goBack _ k).
  - destruct Hcases as [(i & Hf & Hs)|[(Hf & Hsol & Hs)|(Hf & Hsol & Hs)]];
      rewrite Hs in Hstep; injection Hstep as <-; [left; eauto|right; eauto|].
    exfalso. simpl in Hsol.
    rewrite isSolved_setCell_zero in Hsol; [done|].
    destruct Hinv as [Hin _ _ _]. apply (Forall_lookup_1 _ _ _ _ Hin Hp).
Qed.
End search_facts.

(** * Termination of the search loop *)

Section search_termination.
Implicit Types (g : grid) (s : sudoku) (st : search) (p q : Position.t).
Implicit Types (k j n m : nat) (i v : Z).

Lemma steps_add n m st :
  steps (n + m) st =
    match steps n st with
    | Continue st' => steps m st'
    | r => r
    end.
Proof.
  revert st. induction n as [|n IH]; intros st; simpl; [done|].
  destruct (step st); [apply IH|done..].
Qed.

Lemma searchLoop_steps fuel st :
  searchLoop fuel st =
    match steps fuel st with
    | Continue st' => (OutOfFuel, game st')
    | Break s => (Returned, s)
    | TypeError s => (Threw, s)
    end.
Proof.
  revert st. induction fuel as [|fuel IH]; intros st; simpl; [done|].
  destruct (step st); [apply IH|done..].
Qed.

Lemma tested_length (l : list Z) :
  NoDup l → (∀ v, v ∈ l → In v candidates) → length l ≤ 9.
Proof.
  intros Hnd Hin. change 9 with (length candidates).
  apply NoDup_incl_length; [by apply NoDup_ListNoDup|].
  intros v Hv. apply Hin. by apply list_elem_of_In.
Qed.

Lemma step_below_zero st :
  (nextIndex st < 0)%Z → step st = TypeError (game st).
Proof.
  intros H. destruct (step_inversion st) as [[_ ?]|[[? _]|(k & _ & ? & _)]];
    [lia|done|lia].
Qed.

(** From index [k], the loop either breaks or comes back to index [k - 1]
    with the entries before [k] as they were. *)
Lemma excursion m k st :
  searchInv st → nextIndex st = Z.of_nat k →
  k + m = length (unfilledPositions st) →
  ∃ n, ended (steps n st) ∨
       (∃ st', steps n st = Continue st' ∧ searchInv st' ∧
               nextIndex st' = (Z.of_nat k - 1)%Z ∧
               length (unfilledPositions st') = length (unfilledPositions st) ∧
               take k (unfilledPositions st') = take k (unfilledPositions st)).
Proof.
  revert k st. induction m as [|m IHm]; intros k st Hinv Hk Hlen.
  { exists 1. left. simpl.
    destruct (step_inversion st) as [[Hs _]|[[_ ?]|(k' & p & ? & Hp & _)]];
      [by rewrite Hs|lia|].
    apply lookup_lt_Some in Hp. lia. }
  assert (∀ j st0,
    searchInv st0 → nextIndex st0 = Z.of_nat k →
    k + S m = length (unfilledPositions st0) →
    (∀ p, unfilledPositions st0 !! k = Some p →
          9 ≤ length (Position.valuesTested p) + j) →
    ∃ n, ended (steps n st0) ∨
         (∃ st', steps n st0 = Continue st' ∧ searchInv st' ∧
                 nextIndex st' = (Z.of_nat k - 1)%Z ∧
                 length (unfilledPositions st') = length (unfilledPositions st0) ∧
                 take k (unfilledPositions st') = take k (unfilledPositions st0)))
    as Hinner.
  2:{ apply (Hinner 9); [done..|]. intros; lia. }
  clear st Hinv Hk Hlen.
  induction j as [|j IHj]; intros st Hinv Hk Hlen Hmeas.
  all: destruct (step st) as [st1|s|s] eqn:Hstep;
    [|exists 1; left; simpl; by rewrite Hstep..].
  all: pose proof Hstep as Hstep';
    apply (step_searchInv _ _ Hinv) in Hstep'
      as (k' & p & Hk' & Hp & Hinv1 & [(i & Hf & Hst1)|(Hf & Hst1)]).
  all: assert (k' = k) as -> by lia.
  all: try (exists 1; right; exists st1; simpl; rewrite Hstep;
            split_and!; [done|done|subst st1; simpl; lia| |];
            subst st1; simpl; rewrite Hk, Nat2Z.id;
            [apply length_insert|apply take_insert_ge; lia]).
  - (* a value is accepted although nine are tested already *)
    exfalso. specialize (Hmeas p Hp).
    destruct Hinv1 as [_ Ht _ _]. subst st1. simpl in Ht.
    rewrite Hk, Nat2Z.id in Ht.
    assert (k < length (unfilledPositions st)) as Hlt by (by eapply lookup_lt_Some).
    pose proof (Forall_lookup_1 _ _ k _ Ht (list_lookup_insert_eq _ _ _ Hlt))
      as [Hnd Hc]. simpl in *.
    pose proof (tested_length _ Hnd Hc) as Hl. rewrite length_app in Hl.
    simpl in Hl. lia.
  - (* a value is accepted: the search goes on from [k + 1] *)
    assert (k < length (unfilledPositions st)) as Hlt by (by eapply lookup_lt_Some).
    assert (unfilledPositions st1 =
              <[k := Position.mk (Position.x p) (Position.y p)
                       (Position.valuesTested p ++ [i])]> (unfilledPositions st))
      as Hups1 by (subst st1; simpl; by rewrite Hk, Nat2Z.id).
    assert (nextIndex st1 = Z.of_nat (S k)) as Hidx1 by (subst st1; simpl; lia).
    destruct (IHm (S k) st1 Hinv1 Hidx1) as [n1 [Hend|Hback]].
    { rewrite Hups1, length_insert. lia. }
    { exists (1 + n1). left. rewrite steps_add. simpl. by rewrite Hstep. }
    destruct Hback as (st2 & Hsteps2 & Hinv2 & Hidx2 & Hlen2 & Htake2).
    assert (unfilledPositions st2 !! k = unfilledPositions st1 !! k) as Hsame.
    { rewrite <- (lookup_take_lt (unfilledPositions st2) (S k)) by lia.
      rewrite Htake2. apply lookup_take_lt. lia. }
    destruct (IHj st2) as [n2 Hn2]; [done|lia| | |].
    { rewrite Hlen2, Hups1, length_insert. lia. }
    { intros q Hq. rewrite Hsame, Hups1, list_lookup_insert_eq in Hq by done.
      injection Hq as <-. simpl. rewrite length_app. simpl.
      specialize (Hmeas p Hp). lia. }
    exists (1 + n1 + n2). rewrite (steps_add (1 + n1)), steps_add. simpl.
    rewrite Hstep, Hsteps2.
    destruct Hn2 as [?|(st3 & Hsteps3 & Hinv3 & Hidx3 & Hlen3 & Htake3)];
      [by left|right].
    exists st3. split_and!; [done..| |].
    + rewrite Hlen3, Hlen2, Hups1. apply length_insert.
    + rewrite Htake3.
      assert (take k (take (S k) (unfilledPositions st2)) =
              take k (take (S k) (unfilledPositions st1))) as Ht by (by rewrite Htake2).
      rewrite !take_take, !Nat.min_l in Ht by lia.
      rewrite Ht, Hups1. apply take_insert_ge. lia.
Qed.

(** The loop ends, whatever the state it is entered in. *)
Lemma search_terminates st :
  searchInv st → nextIndex st = 0%Z →
  ∃ n, ∀ fuel, n ≤ fuel →
    (searchLoop fuel st).1 ≠ OutOfFuel ∧ searchLoop fuel st = searchLoop n st.
Proof.
  intros Hinv Hidx.
  assert (∃ n, ended (steps n st)) as [n Hn].
  { destruct (excursion (length (unfilledPositions st)) 0 st Hinv Hidx)
      as [n [Hend|(st' & Hs & _ & Hidx' & _)]]; [lia| |].
    - by exists n.
    - exists (n + 1). rewrite steps_add, Hs. simpl.
      rewrite step_below_zero; [done|lia]. }
  exists n. intros fuel Hfuel.
  replace fuel with (n + (fuel - n)) by lia.
  rewrite !searchLoop_steps, steps_add.
  destruct (steps n st); done.
Qed.
End search_termination.

(** * Termination of the sweeps, and of [solve] *)

Section solve_termination.
Implicit Types (g : grid) (s : sudoku) (st : search) (p q : Position.t).
Implicit Types (x y k j n m : nat) (i : Z) (v : number).

Lemma countWhere_lt {A} (f h : A → bool) (l : list A) (a : A) :
  a ∈ l → f a = true → h a = false →
  (∀ b, b ∈ l → h b = true → f b = true) →
  countWhere h l < countWhere f l.
Proof.
  induction l as [|b l IH]; intros Ha Hf Hh Hle.
  { by apply elem_of_nil in Ha. }
  simpl. apply elem_of_cons in Ha as [<-|Ha].
  - rewrite Hf, Hh.
    assert (countWhere h l ≤ countWhere f l); [|lia].
    apply countWhere_le. intros c Hc. apply Hle. by right.
  - assert (countWhere h l < countWhere f l).
    { apply IH; [done..|]. intros c Hc. apply Hle. by right. }
    destruct (h b) eqn:Hb; [|destruct (f b); lia].
    rewrite (Hle b); [lia|by left|done].
Qed.

Lemma allCoords_setCell g x y v : allCoords (setCell g x y v) = allCoords g.
Proof.
  unfold allCoords. rewrite length_setCell. apply flat_map_ext.
  intros r. apply rowCoords_setCell.
Qed.

Lemma elem_of_allCoords g x y : (x, y) ∈ allCoords g ↔ is_Some (cell g x y).
Proof.
  unfold allCoords. rewrite list_elem_of_In, in_flat_map, cell_is_Some. split.
  - intros (r & Hr & Hin). apply list_elem_of_In, elem_of_seq in Hr.
    apply list_elem_of_In, elem_of_rowCoords in Hin as [-> ?]. lia.
  - intros [Hx Hy]. exists x. split.
    + apply list_elem_of_In, elem_of_seq. lia.
    + by apply list_elem_of_In, elem_of_rowCoords.
Qed.

Lemma zeros_setCell g x y v :
  cell g x y = Some zero → v ≠ zero → zeros (setCell g x y v) < zeros g.
Proof.
  intros Hc Hi. unfold zeros. rewrite allCoords_setCell.
  apply (countWhere_lt _ _ _ (x, y)).
  - apply elem_of_allCoords. by rewrite Hc.
  - by apply cellIs_Some.
  - apply not_true_iff_false. rewrite cellIs_Some, cell_setCell_eq by (by rewrite Hc).
    congruence.
  - intros [x' y'] _. rewrite !cellIs_Some, cell_setCell.
    case_decide; [congruence|done].
Qed.

Lemma sweepCell_zeros acc x y :
  zeros (values (sweepCell acc x y).1) + (if (sweepCell acc x y).2 then 1 else 0)
  ≤ zeros (values acc.1) + (if acc.2 then 1 else 0).
Proof.
  unfold sweepCell.
  destruct (cellIs (values acc.1) zero (x, y)) eqn:Hc; [|done].
  apply cellIs_Some in Hc.
  destruct (find _ candidates) as [i|] eqn:Hfind; [|done].
  apply find_some in Hfind as [Hi%candidates_range _]. simpl.
  assert (zeros (setCell (values acc.1) x y (ofZ i)) < zeros (values acc.1))
    by (apply zeros_setCell; [done|rewrite ofZ_zero; lia]).
  destruct acc.2; lia.
Qed.

Lemma sweepRow_zeros acc x :
  zeros (values (sweepRow acc x).1) + (if (sweepRow acc x).2 then 1 else 0)
  ≤ zeros (values acc.1) + (if acc.2 then 1 else 0).
Proof.
  unfold sweepRow. generalize (seq 0 (rowLength (values acc.1) x)). intros ys.
  revert acc. induction ys as [|y ys IH]; intros acc; simpl; [done|].
  etrans; [apply IH|apply sweepCell_zeros].
Qed.

Lemma sweep_zeros s :
  zeros (values (sweep s).1) + (if (sweep s).2 then 1 else 0) ≤ zeros (values s).
Proof.
  unfold sweep. generalize (seq 0 (length (values s))). intros xs.
  assert (∀ acc, zeros (values (fold_left sweepRow xs acc).1) +
                 (if (fold_left sweepRow xs acc).2 then 1 else 0)
                 ≤ zeros (values acc.1) + (if acc.2 then 1 else 0)) as H.
  { induction xs as [|x xs IH]; intros acc; simpl; [done|].
    etrans; [apply IH|apply sweepRow_zeros]. }
  specialize (H (s, false)). simpl in H. lia.
Qed.

Lemma propagate_not_Threw fuel s : (propagate fuel s).1 ≠ Threw.
Proof.
  revert s. induction fuel as [|fuel IH]; intros s; simpl.
  - by destruct (isSolved (values s)).
  - destruct (isSolved (values s)); [done|].
    destruct (sweep s).2; [apply IH|done].
Qed.

Lemma propagate_terminates fuel s :
  zeros (values s) < fuel → (propagate fuel s).1 = Returned.
Proof.
  revert s. induction fuel as [|fuel IH]; intros s Hz; [lia|]. simpl.
  destruct (isSolved (values s)); [done|].
  pose proof (sweep_zeros s) as Hsweep.
  destruct (sweep s).2; [|done]. apply IH. lia.
Qed.

Lemma propagate_fuel n m s :
  (propagate n s).1 ≠ OutOfFuel → propagate (n + m) s = propagate n s.
Proof.
  revert s. induction n as [|n IH]; intros s; simpl.
  - destruct (isSolved (values s)) eqn:Hs; [|done].
    intros _. destruct m; simpl; by rewrite Hs.
  - destruct (isSolved (values s)); [done|].
    destruct (sweep s).2; [apply IH|done].
Qed.

Lemma searchLoop_fuel n m st :
  (searchLoop n st).1 ≠ OutOfFuel → searchLoop (n + m) st = searchLoop n st.
Proof.
  revert st. induction n as [|n IH]; intros st; simpl; [done|].
  destruct (step st); [apply IH|done..].
Qed.

Lemma NoDup_flat_map {A B} (f : A → list B) (key : B → A) (l : list A) :
  NoDup l → (∀ a, NoDup (f a)) → (∀ a b, b ∈ f a → key b = a) →
  NoDup (flat_map f l).
Proof.
  intros Hl Hf Hkey. induction l as [|a l IH]; simpl; [apply NoDup_nil_2|].
  apply NoDup_cons in Hl as [Ha Hl]. apply NoDup_app. split_and!; [done| |by apply IH].
  intros b Hb Hb'. apply list_elem_of_In, in_flat_map in Hb' as (a' & Ha' & Hin).
  apply list_elem_of_In in Ha', Hin.
  rewrite <- (Hkey a b Hb), (Hkey a' b Hin) in Ha. done.
Qed.

Lemma elem_of_getUnfilledPositions g p :
  p ∈ getUnfilledPositions g →
  cellAt g p = Some zero ∧ Position.valuesTested p = [].
Proof.
  unfold getUnfilledPositions. rewrite list_elem_of_In, in_flat_map.
  intros (x & _ & Hin). apply in_flat_map in Hin as (y & _ & Hin).
  destruct (cellIs g zero (x, y)) eqn:Hc; simpl in Hin; [|done].
  apply cellIs_Some in Hc. destruct Hin as [<-|[]]. done.
Qed.

Lemma NoDup_getUnfilledPositions g : NoDup (coords <$> getUnfilledPositions g).
Proof.
  apply NoDup_fmap_2_strong.
  - intros [x y t] [x' y' t'] [_ Ht]%elem_of_getUnfilledPositions
      [_ Ht']%elem_of_getUnfilledPositions. unfold coords. simpl in *.
    congruence.
  - unfold getUnfilledPositions.
    apply (NoDup_flat_map _ Position.x); [apply NoDup_seq| |].
    + intros x. apply (NoDup_flat_map _ Position.y); [apply NoDup_seq| |].
      * intros y. destruct (cellIs g zero (x, y));
          auto using NoDup_nil_2, NoDup_singleton.
      * intros y p Hp. destruct (cellIs g zero (x, y));
          [|by apply elem_of_nil in Hp].
        apply list_elem_of_singleton in Hp as ->. done.
    + intros x p Hp. apply list_elem_of_In, in_flat_map in Hp as (y & _ & Hp).
      destruct (cellIs g zero (x, y)); simpl in Hp; [|done].
      destruct Hp as [<-|[]]. done.
Qed.

Lemma searchInv_start s : searchInv (searchStart s).
Proof.
  split; simpl.
  - apply Forall_forall. intros p [Hp _]%elem_of_getUnfilledPositions.
    by rewrite Hp.
  - apply Forall_forall. intros p [_ Hp]%elem_of_getUnfilledPositions.
    rewrite Hp. split; [apply NoDup_nil_2|]. intros v Hv.
    by apply elem_of_nil in Hv.
  - apply NoDup_getUnfilledPositions.
  - intros j p Hj. lia.
Qed.

(** [solve] ends on every object, and from some number of iterations on
    the number allowed no longer matters. *)
Lemma solve_terminates s :
  ∃ n, ∀ fuel, n ≤ fuel →
    (solve fuel s).1 ≠ OutOfFuel ∧ solve fuel s = solve n s.
Proof.
  set (n1 := S (zeros (values s))).
  assert ((propagate n1 s).1 = Returned) as Hp1
    by (apply propagate_terminates; lia).
  assert (∀ fuel, n1 ≤ fuel → propagate fuel s = propagate n1 s) as Hpf.
  { intros fuel Hfuel. replace fuel with (n1 + (fuel - n1)) by lia.
    apply propagate_fuel. by rewrite Hp1. }
  destruct (propagate n1 s) as [st1 s1] eqn:Hprop. simpl in Hp1. subst st1.
  destruct (isSolved (values s1)) eqn:Hsolved.
  - exists n1. intros fuel Hfuel. unfold solve.
    rewrite (Hpf fuel Hfuel), (Hpf n1), Hsolved by lia. done.
  - destruct (search_terminates (searchStart s1) (searchInv_start s1) eq_refl)
      as [n2 Hn2].
    exists (max n1 n2). intros fuel Hfuel. unfold solve, solveByTrialAndError.
    rewrite (Hpf fuel), (Hpf (max n1 n2)), Hsolved by lia. simpl.
    destruct (Hn2 fuel) as [Hne ->]; [lia|].
    destruct (Hn2 (max n1 n2)) as [_ ->]; [lia|]. split; [|done].
    destruct (Hn2 n2) as [Hne2 _]; [lia|done].
Qed.
End solve_termination.

(** * Claims about the run of [solve] as a whole *)

Lemma solve_fuel (n m : nat) (s : sudoku) :
  (solve n s).1 ≠ OutOfFuel → solve (n + m) s = solve n s.
Proof.
  unfold solve, solveByTrialAndError. intros H.
  destruct (propagate n s) as [st1 s1] eqn:Hp.
  assert (propagate (n + m) s = (st1, s1)) as ->.
  { rewrite propagate_fuel; [done|]. rewrite Hp. simpl.
    destruct st1; try done. }
  destruct st1; try done.
  destruct (negb _); [|done]. by apply searchLoop_fuel.
Qed.

(** C7.  For every matrix accepted by the constructor that has exactly two
    cells other than 0, [solve] ends: there is a number of iterations within
    which both the sweep loop and the search loop have been left (by the
    normal exit or by the [TypeError] of the search), and allowing more
    iterations changes nothing. *)
Theorem solve_two_givens_terminates (m : grid) (s : sudoku) :
  Sudoku m = inr s → filledCells m = 2 →
  ∃ n, ∀ fuel, n ≤ fuel →
    (solve fuel s).1 ≠ OutOfFuel ∧ solve fuel s = solve n s.
Proof. intros _ _. apply solve_terminates. Qed.

Lemma solve_two_givens_terminates_witness :
  ∃ n, ∀ fuel, n ≤ fuel →
    (solve fuel cornerGame).1 ≠ OutOfFuel ∧
    solve fuel cornerGame = solve n cornerGame.
Proof.
  apply (solve_two_givens_terminates cornerGrid cornerGame);
    vm_compute; reflexivity.
Defined.

(** The corner-diagonal matrix is solved by the search, which returns
    normally. *)
Example solve_corner_returns :
  (solve 2000 cornerGame).1 = Returned ∧
  isSolved (values (solve 2000 cornerGame).2) = true.
Proof. split; vm_compute; reflexivity. Qed.

(** * The acceptance rule of the sweep *)

Section sweep_rule.
Implicit Types (g : grid) (s : sudoku) (x y : nat) (u i : Z) (v : number).

(** The scan over 1..9 stops at the first value that passes the test. *)
Lemma find_candidates (f : Z → bool) i :
  find f candidates = Some i ↔
    (1 ≤ i ≤ 9)%Z ∧ f i = true ∧ ∀ u, (1 ≤ u < i)%Z → f u = false.
Proof.
  unfold candidates. simpl.
  destruct (f 1%Z) eqn:H1; [|destruct (f 2%Z) eqn:H2;
    [|destruct (f 3%Z) eqn:H3; [|destruct (f 4%Z) eqn:H4;
      [|destruct (f 5%Z) eqn:H5; [|destruct (f 6%Z) eqn:H6;
        [|destruct (f 7%Z) eqn:H7; [|destruct (f 8%Z) eqn:H8;
          [|destruct (f 9%Z) eqn:H9]]]]]]]].
  all: split;
    [ intros [= <-]; (split; [lia|]); (split; [done|]);
      intros u Hu;
      assert (u = 1 ∨ u = 2 ∨ u = 3 ∨ u = 4 ∨ u = 5 ∨ u = 6 ∨ u = 7 ∨ u = 8)%Z
        as Hc by lia;
      repeat (destruct Hc as [->|Hc]); try subst u; (done || lia)
    | intros (Hv & Hfv & Hbefore);
      assert (i = 1 ∨ i = 2 ∨ i = 3 ∨ i = 4 ∨ i = 5 ∨ i = 6 ∨ i = 7 ∨ i = 8 ∨ i = 9)%Z
        as Hc by lia;
      repeat (destruct Hc as [->|Hc]); try subst i; try done; try congruence;
      exfalso;
      first [ rewrite Hbefore in H1 by lia; done
            | rewrite Hbefore in H2 by lia; done
            | rewrite Hbefore in H3 by lia; done
            | rewrite Hbefore in H4 by lia; done
            | rewrite Hbefore in H5 by lia; done
            | rewrite Hbefore in H6 by lia; done
            | rewrite Hbefore in H7 by lia; done
            | rewrite Hbefore in H8 by lia; done ] ].
Qed.

Lemma canHold_qualifies g v p : canHold g v p = true ↔ qualifies g v p.
Proof.
  destruct p as [x y]. unfold canHold, qualifies, isValuePresentInRow,
    isValuePresentInColumn.
  rewrite andb_true_iff, negb_true_iff, orb_false_iff, !Nat.ltb_ge,
    cellIs_Some. simpl.
  split; intros (? & ? & ?); split_and!; (done || lia).
Qed.

Lemma valid_accepted g x y v :
  isValueValidInPosition g x y v true = true ↔ accepted g x y v.
Proof.
  unfold isValueValidInPosition, accepted, isValuePresentInRow,
    isValuePresentInColumn, isValuePresentInGroup,
    canValueBeAddedInOnlyOnePositionInGroup.
  rewrite !andb_true_iff, !negb_true_iff, !Nat.ltb_ge, Nat.eqb_eq.
  rewrite countWhere_one by apply NoDup_groupCoords.
  assert ((∃ a, a ∈ groupCoords x y ∧ canHold g v a = true ∧
                ∀ b, b ∈ groupCoords x y → canHold g v b = true → b = a) ↔
          (∃ p, p ∈ groupCoords x y ∧ qualifies g v p ∧
                ∀ q, q ∈ groupCoords x y → qualifies g v q → q = p)) as ->.
  { split; intros (p & Hp & Hq & Huniq); exists p; split_and!; try done.
    - by apply canHold_qualifies.
    - intros q Hq' Hqq. apply Huniq; [done|]. by apply canHold_qualifies.
    - by apply canHold_qualifies.
    - intros q Hq' Hqq. apply Huniq; [done|]. by apply canHold_qualifies. }
  split; [intros [[[? ?] ?] ?]|intros (? & ? & ? & ?)]; split_and!; (done || lia).
Qed.
End sweep_rule.



(** * The writes of [solve] *)

Section write_history.
Implicit Types (g : grid) (s : sudoku) (st : search) (p q : Position.t).
Implicit Types (x y k j n m : nat) (i v : Z) (w : write) (ws : list write).

Lemma replay_app ws ws' g : replay (ws ++ ws') g = replay ws' (replay ws g).
Proof. apply fold_left_app. Qed.

Lemma is_Some_cell_replay ws g x y :
  is_Some (cell (replay ws g) x y) ↔ is_Some (cell g x y).
Proof.
  revert g. induction ws as [|w ws IH]; intros g; simpl; [done|].
  by rewrite IH, is_Some_cell_setCell.
Qed.

Lemma writesSince_refl s : writesSince s s [].
Proof. split; [by rewrite app_nil_r|done]. Qed.

Lemma writesSince_setValue s0 s ws x y v :
  writesSince s0 s ws → writesSince s0 (setValue s x y v) (ws ++ [(x, y, v)]).
Proof.
  intros [Hw Hv]. split; simpl.
  - by rewrite Hw, app_assoc.
  - by rewrite replay_app, <- Hv.
Qed.

Lemma writesSince_trans s0 s1 s2 ws ws' :
  writesSince s0 s1 ws → writesSince s1 s2 ws' → writesSince s0 s2 (ws ++ ws').
Proof.
  intros [Hw Hv] [Hw' Hv']. split.
  - by rewrite Hw', Hw, app_assoc.
  - by rewrite replay_app, <- Hv.
Qed.

(** Writes that go to cells other than [(x, y)] leave it as it is. *)
Lemma replay_frame ws g x y :
  Forall (λ w, (w.1.1, w.1.2) ≠ (x, y)) ws →
  cell (replay ws g) x y = cell g x y.
Proof.
  revert g. induction ws as [|w ws IH]; intros g Hws; simpl; [done|].
  apply Forall_cons in Hws as [Hw Hws].
  rewrite IH by done. by apply cell_setCell_ne.
Qed.

Lemma replay_keeps_givens ws g :
  Forall (λ w, cell g w.1.1 w.1.2 = Some zero) ws → givensKept g (replay ws g).
Proof.
  intros Hws x y v Hv Hne. rewrite replay_frame; [done|].
  eapply Forall_impl; [exact Hws|]. simpl. intros w Hw [= <- <-]. congruence.
Qed.

(** A cell that holds 0 after writes that went to unfilled cells held 0
    before them. *)
Lemma replay_zero_origin ws g x y :
  Forall (λ w, cell g w.1.1 w.1.2 = Some zero) ws →
  cell (replay ws g) x y = Some zero → cell g x y = Some zero.
Proof.
  intros Hws Hc.
  assert (is_Some (cell g x y)) as [v Hv].
  { apply (is_Some_cell_replay ws). by rewrite Hc. }
  destruct (decide (v = zero)) as [->|Hne]; [done|].
  rewrite (replay_keeps_givens ws g Hws x y v Hv Hne) in Hc. congruence.
Qed.

Lemma writesToUnfilled_origin ws g :
  writesToUnfilled g ws → Forall (λ w, cell g w.1.1 w.1.2 = Some zero) ws.
Proof.
  induction ws as [|w ws IH] using rev_ind; intros H; [done|].
  assert (Forall (λ w, cell g w.1.1 w.1.2 = Some zero) ws) as Hws.
  { apply IH. intros k w' Hk.
    assert (k < length ws) as Hlt by (by eapply lookup_lt_Some).
    specialize (H k w'). rewrite lookup_app_l, take_app_le in H by lia.
    by apply H. }
  apply Forall_app. split; [done|]. apply Forall_singleton.
  apply (replay_zero_origin ws); [done|].
  specialize (H (length ws) w).
  rewrite take_app_length in H. apply H.
  by rewrite lookup_app_r, Nat.sub_diag by lia.
Qed.

Lemma writesToUnfilled_snoc ws g x y v :
  writesToUnfilled g ws → cell (replay ws g) x y = Some zero →
  writesToUnfilled g (ws ++ [(x, y, v)]).
Proof.
  intros H Hc k w Hk.
  destruct (decide (k < length ws)) as [Hlt|Hge].
  - rewrite lookup_app_l in Hk by done. rewrite take_app_le by lia. by apply H.
  - rewrite lookup_app_r in Hk by lia.
    destruct (k - length ws) as [|[|?]] eqn:Hd; simpl in Hk; try done.
    injection Hk as <-. assert (k = length ws) as -> by lia.
    by rewrite take_app_length.
Qed.

(** *** The sweeps *)

Lemma sweepCell_swept s0 acc x y :
  sweptFrom s0 acc.1 → sweptFrom s0 (sweepCell acc x y).1.
Proof.
  intros (ws & Hsince & Hws). unfold sweepCell.
  destruct (cellIs (values acc.1) zero (x, y)) eqn:Hc; [|by exists ws].
  apply cellIs_Some in Hc.
  destruct (find _ candidates) as [i|]; [|by exists ws].
  exists (ws ++ [(x, y, i)]). split; [by apply writesSince_setValue|].
  apply writesToUnfilled_snoc; [done|]. destruct Hsince as [_ <-]. done.
Qed.

Lemma sweepRow_swept s0 acc x :
  sweptFrom s0 acc.1 → sweptFrom s0 (sweepRow acc x).1.
Proof.
  unfold sweepRow. generalize (seq 0 (rowLength (values acc.1) x)). intros ys.
  revert acc. induction ys as [|y ys IH]; intros acc H; simpl; [done|].
  by apply IH, sweepCell_swept.
Qed.

Lemma sweep_swept s0 s : sweptFrom s0 s → sweptFrom s0 (sweep s).1.
Proof.
  unfold sweep. generalize (seq 0 (length (values s))). intros xs.
  change s with ((s, false).1) at 1.
  generalize (s, false). intros acc. revert acc.
  induction xs as [|x xs IH]; intros acc H; simpl; [done|].
  by apply IH, sweepRow_swept.
Qed.

Lemma propagate_swept fuel s0 s :
  sweptFrom s0 s → sweptFrom s0 (propagate fuel s).2.
Proof.
  revert s. induction fuel as [|fuel IH]; intros s H; simpl.
  - by destruct (isSolved (values s)).
  - destruct (isSolved (values s)); [done|].
    pose proof (sweep_swept s0 s H).
    destruct (sweep s).2; [by apply IH|done].
Qed.

(** *** The search *)

Lemma searchedFrom_write s1 st p k v ups' idx :
  searchedFrom s1 st → unfilledPositions st !! k = Some p →
  coords <$> ups' = coords <$> unfilledPositions st →
  searchedFrom s1
    {| game := setValue (game st) (Position.x p) (Position.y p) v;
       unfilledPositions := ups'; nextIndex := idx |}.
Proof.
  intros (Hups & ws & Hsince & Hws) Hp Hups'. split; simpl; [congruence|].
  exists (ws ++ [(Position.x p, Position.y p, v)]).
  split; [by apply writesSince_setValue|].
  apply Forall_app. split; [done|]. apply Forall_singleton. simpl.
  rewrite <- Hups. apply (list_elem_of_fmap_2 coords).
  by eapply list_elem_of_lookup_2.
Qed.

Lemma step_searched s1 st st' :
  searchedFrom s1 st → step st = Continue st' → searchedFrom s1 st'.
Proof.
  intros Hs Hstep.
  destruct (step_inversion st) as [[Hb _]|[[Hb _]|(k & p & Hk & Hp & Hcases)]];
    [congruence..|].
  assert (searchedFrom s1 (clearCurrent st p)) as Hs1
    by (by apply (searchedFrom_write s1 st p k)).
  destruct Hcases as [(i & Hf & Hst)|[(Hf & Hsol & Hst)|(Hf & Hsol & Hst)]];
    rewrite Hst in Hstep; injection Hstep as <-; [| |done].
  - apply (searchedFrom_write s1 _ p k); [done|done|].
    simpl. rewrite Hk, Nat2Z.id. by apply coords_insert.
  - apply (searchedFrom_write s1 _ p k); [done|done|].
    simpl. rewrite Hk, Nat2Z.id. by apply coords_insert.
Qed.

Lemma step_searched_end s1 st :
  searchedFrom s1 st → ended (step st) →
  ∃ ws, writesSince s1 (gameAfter (step st)) ws ∧
        writesWithin (getUnfilledPositions (values s1)) ws.
Proof.
  intros (_ & ws & Hsince & Hws) Hend. exists ws.
  destruct (step_inversion st) as [[Hb _]|[[Hb _]|(k & p & Hk & Hp & Hcases)]];
    [by rewrite Hb..|].
  destruct Hcases as [(i & Hf & Hst)|[(Hf & Hsol & Hst)|(Hf & Hsol & Hst)]];
    rewrite Hst in Hend; done.
Qed.

Lemma searchLoop_searched fuel s1 st :
  searchedFrom s1 st →
  ∃ ws, writesSince s1 (searchLoop fuel st).2 ws ∧
        writesWithin (getUnfilledPositions (values s1)) ws.
Proof.
  revert st. induction fuel as [|fuel IH]; intros st Hs; simpl.
  { destruct Hs as (_ & ws & ? & ?). by exists ws. }
  destruct (step st) as [st'|s|s] eqn:Hstep.
  - apply IH. by eapply step_searched.
  - pose proof (step_searched_end s1 st Hs) as H. rewrite Hstep in H. by apply H.
  - pose proof (step_searched_end s1 st Hs) as H. rewrite Hstep in H. by apply H.
Qed.

Lemma searchedFrom_start s1 : searchedFrom s1 (searchStart s1).
Proof.
  split; [done|]. exists []. split; [apply writesSince_refl|]. apply Forall_nil_2.
Qed.

(** *** [solve] *)

(** The writes of [solve] are those of the sweeps, each to a cell that
    holds 0 when it is made, followed by those of the search, each to one
    of the positions that the search listed at its start. *)
Lemma solve_writes fuel s :
  ∃ ws1 ws2,
    writesSince s (propagate fuel s).2 ws1 ∧
    writesSince s (solve fuel s).2 (ws1 ++ ws2) ∧
    writesToUnfilled (values s) ws1 ∧
    writesWithin (getUnfilledPositions (values (propagate fuel s).2)) ws2.
Proof.
  destruct (propagate_swept fuel s s) as (ws1 & Hsince1 & Hws1).
  { exists []. split; [apply writesSince_refl|]. intros k w Hk. done. }
  unfold solve, solveByTrialAndError.
  destruct (propagate fuel s) as [status1 s1] eqn:Hp. simpl in *.
  assert (∃ ws2, writesSince s s1 (ws1 ++ ws2) ∧
                 writesWithin (getUnfilledPositions (values s1)) ws2) as Hnone.
  { exists []. rewrite app_nil_r. split; [done|apply Forall_nil_2]. }
  destruct status1; [|destruct Hnone as (ws2 & ? & ?); by exists ws1, ws2..].
  destruct (negb _); [|destruct Hnone as (ws2 & ? & ?); by exists ws1, ws2].
  destruct (searchLoop_searched fuel s1 _ (searchedFrom_start s1))
    as (ws2 & Hsince2 & Hws2).
  exists ws1, ws2. split_and!; [done| |done|done].
  by eapply writesSince_trans.
Qed.

Lemma writes_to_original_zeros g ws1 ws2 :
  writesToUnfilled g ws1 →
  writesWithin (getUnfilledPositions (replay ws1 g)) ws2 →
  Forall (λ w, cell g w.1.1 w.1.2 = Some zero) (ws1 ++ ws2).
Proof.
  intros H1%writesToUnfilled_origin H2. apply Forall_app. split; [done|].
  eapply Forall_impl; [exact H2|]. simpl.
  intros w (p & Hw & [Hp _]%elem_of_getUnfilledPositions)%list_elem_of_fmap.
  unfold coords, cellAt in *. injection Hw as -> ->.
  by apply (replay_zero_origin ws1).
Qed.
End write_history.

(** C10.  For a matrix accepted by the constructor, the writes of [solve]
    are the writes [ws1] of the sweeps, each to a cell that holds 0 when it
    is written, followed by the writes [ws2] of the search, each to one of
    the positions that were unfilled when the search listed them.  After any
    number [k] of these writes, and so at every point during [solve] and
    after it, every cell that was not 0 when [solve] was called holds the
    value it held then. *)
Theorem solve_keeps_givens (m : grid) (s : sudoku) (fuel : nat) :
  Sudoku m = inr s →
  ∃ ws1 ws2,
    writes (solve fuel s).2 = ws1 ++ ws2 ∧
    values (solve fuel s).2 = replay (ws1 ++ ws2) m ∧
    writesToUnfilled m ws1 ∧
    writesWithin (getUnfilledPositions (replay ws1 m)) ws2 ∧
    (∀ k, givensKept m (replay (take k (ws1 ++ ws2)) m)) ∧
    givensKept m (values (solve fuel s).2).
Proof.
  unfold Sudoku. destruct (validate m); [done|]. intros [= <-].
  destruct (solve_writes fuel {| values := m; writes := [] |})
    as (ws1 & ws2 & [_ Hv1] & [Hw Hv] & Hws1 & Hws2).
  simpl in *. rewrite Hv1 in Hws2.
  pose proof (writes_to_original_zeros m ws1 ws2 Hws1 Hws2) as Hzeros.
  exists ws1, ws2. split_and!; try done.
  - intros k. apply replay_keeps_givens. by apply Forall_take.
  - rewrite Hv. by apply replay_keeps_givens.
Qed.

Lemma solve_keeps_givens_witness :
  ∃ ws1 ws2,
    writes (solve 100 game1).2 = ws1 ++ ws2 ∧
    values (solve 100 game1).2 = replay (ws1 ++ ws2) values1 ∧
    writesToUnfilled values1 ws1 ∧
    writesWithin (getUnfilledPositions (replay ws1 values1)) ws2 ∧
    (∀ k, givensKept values1 (replay (take k (ws1 ++ ws2)) values1)) ∧
    givensKept values1 (values (solve 100 game1).2).
Proof.
  apply (solve_keeps_givens values1 game1 100). vm_compute. reflexivity.
Defined.

(** * The dead end of the search *)

Lemma steps_searchInv (n : nat) (st st' : search) :
  searchInv st → steps n st = Continue st' → searchInv st'.
Proof.
  revert st. induction n as [|n IH]; intros st Hinv; simpl.
  - by intros [= <-].
  - destruct (step st) as [st1| |] eqn:Hstep; [|done..].
    apply IH. by destruct (step_searchInv st st1 Hinv Hstep) as (? & ? & ? & ? & ? & _).
Qed.

(** C5.  In every state that the search reaches, when no candidate is
    accepted at the position [p] of the index [k]: the matrix is not complete
    (the position was just set to 0), so the search never stops there; the
    cell of [p] is 0, the tested values of [p] are cleared, and the index is
    [k - 1]; the position before is tried again with its tested values as
    they were, and these contain the value its cell holds, which is therefore
    skipped. *)
Theorem search_dead_end (s : sudoku) (n : nat) (st : search) (k : nat)
    (p : Position.t) :
  steps n (searchStart s) = Continue st →
  nextIndex st = Z.of_nat k → unfilledPositions st !! k = Some p →
  firstUntested (values (game (clearCurrent st p))) p = None →
  deadEndOutcome st k p.
Proof.
  intros Hreach Hk Hp Hnone.
  pose proof (steps_searchInv n _ _ (searchInv_start s) Hreach) as Hinv.
  pose proof (searchInv_clear st k p Hinv Hk Hp) as Hinv1.
  assert (is_Some (cellAt (values (game st)) p)) as Hinside.
  { destruct Hinv as [Hin _ _ _]. apply (Forall_lookup_1 _ _ _ _ Hin Hp). }
  assert (isSolved (values (game (clearCurrent st p))) = false) as Hunsolved.
  { simpl. by apply isSolved_setCell_zero. }
  assert (step st = Continue (goBack (clearCurrent st p) p)) as Hstep.
  { destruct (step_inversion st) as [[_ Hge]|[[_ Hneg]|(k' & p' & Hk' & Hp' & Hcases)]].
    - apply lookup_lt_Some in Hp. lia.
    - lia.
    - assert (k' = k) as -> by lia. rewrite Hp in Hp'. injection Hp' as <-.
      destruct Hcases as [(i & Hf & _)|[(_ & _ & Hst)|(_ & Hsol & _)]];
        [congruence|done|congruence]. }
  unfold deadEndOutcome. cbv zeta. split_and!; try done.
  - unfold cellAt in *. simpl. apply cell_setCell_eq.
    by apply is_Some_cell_setCell.
  - simpl. rewrite Hk, Nat2Z.id. apply list_lookup_insert_eq.
    by eapply lookup_lt_Some.
  - simpl. lia.
  - intros j Hj. simpl. rewrite Hk, Nat2Z.id. by apply list_lookup_insert_ne.
  - intros q Hpos Hq.
    destruct Hinv1 as [_ _ Hd Hheld].
    destruct (Hheld (k - 1) q) as (v & Hv & Hvt); [simpl; lia|done|].
    exists v. split_and!; [|done|].
    + unfold cellAt in *. simpl in *. rewrite cell_setCell_ne; [done|].
      apply not_eq_sym.
      apply (distinct_coords (clearCurrent st p) (k - 1) k p q); [done..|lia].
    + intros i (_ & Hnew & _)%firstUntested_Some ->. done.
Qed.

Lemma search_dead_end_witness :
  deadEndOutcome backtrackState 1 (Position.mk 0 3 []).
Proof.
  apply (search_dead_end game1 1 backtrackState 1 (Position.mk 0 3 []));
    vm_compute; reflexivity.
Defined.

(** The entry before the dead end of [backtrackState] is the cell (0, 2),
    which holds the value 2 it has tested. *)
Example backtrackState_before :
  unfilledPositions backtrackState !! 0 = Some (Position.mk 0 2 [2%Z]) ∧
  cell (values (game backtrackState)) 0 2 = Some (ofZ 2).
Proof. split; vm_compute; reflexivity. Qed.

(** * More about construction *)

Lemma consistent_not_rejected (g : grid) (x y : nat) :
  consistent g → cellRejected g x y = false.
Proof.
  intros [_ Hrange Hrow Hcol Hgroup]. unfold cellRejected.
  destruct (cell g x y) as [v|] eqn:Hc; [|done].
  destruct (decide (v = zero)) as [->|Hne]; [done|].
  apply andb_false_iff. right.
  destruct (Hrange _ _ _ Hc) as [Hlo Hhi]. pose proof (Hrow x v Hne).
  pose proof (Hcol y v Hne). pose proof (Hgroup x y v Hne).
  rewrite !orb_false_iff. split_and!; [done|done|apply Nat.ltb_ge; lia..].
Qed.

Lemma consistent_validate (g : grid) : consistent g → validate g = None.
Proof.
  intros Hg. apply validate_None. destruct (consistent_shape g Hg) as [Hlen Hrows].
  split; [done|]. intros x Hx. split; [by apply Hrows|].
  intros y _. by apply consistent_not_rejected.
Qed.

(** X1.  The constructor accepts a matrix exactly when the matrix is
    consistent: 9 by 9, every cell from 0 to 9, and no value other than 0
    twice in a row, a column or a group. *)
Theorem construction_accepts_iff_consistent (m : grid) :
  Sudoku m = inr {| values := m; writes := [] |} ↔ consistent m.
Proof.
  unfold Sudoku. split.
  - destruct (validate m) eqn:Hv; [done|]. intros _. by apply validate_consistent.
  - intros Hg. by rewrite (consistent_validate m Hg).
Qed.

Lemma validateCells_first (g : grid) (x a n y : nat) :
  validateCells g x (seq a n) = Some (ConstraintError x y) ↔
    a ≤ y < a + n ∧ cellRejected g x y = true ∧
    ∀ y', a ≤ y' < y → cellRejected g x y' = false.
Proof.
  revert a. induction n as [|n IH]; intros a; simpl.
  - split; [done|]. intros (? & _). lia.
  - destruct (cellRejected g x a) eqn:Hr.
    + split.
      * intros [= <-]. split; [lia|]. split; [done|]. intros y' ?. lia.
      * intros (Hy & Hrej & Hbefore).
        destruct (decide (y = a)) as [->|Hne]; [done|].
        rewrite Hbefore in Hr by lia. done.
    + rewrite IH. split.
      * intros (Hy & Hrej & Hbefore). split; [lia|]. split; [done|].
        intros y' Hy'. destruct (decide (y' = a)) as [->|]; [done|].
        apply Hbefore. lia.
      * intros (Hy & Hrej & Hbefore).
        destruct (decide (y = a)) as [->|Hne]; [congruence|].
        split; [lia|]. split; [done|]. intros y' Hy'. apply Hbefore. lia.
Qed.

Lemma validateCells_other_row (g : grid) (x : nat) (ys : list nat) (x' y : nat) :
  validateCells g x ys = Some (ConstraintError x' y) → x' = x.
Proof. intros (? & [= -> ->] & _)%validateCells_Some. done. Qed.

Lemma validateRows_first (g : grid) (a n x y : nat) :
  validateRows g (seq a n) = Some (ConstraintError x y) ↔
    a ≤ x < a + n ∧ y < 9 ∧ rowLength g x = 9 ∧
    cellRejected g x y = true ∧
    (∀ y', y' < y → cellRejected g x y' = false) ∧
    ∀ x', a ≤ x' < x → rowAccepted g x'.
Proof.
  revert a. induction n as [|n IH]; intros a; simpl.
  - split; [done|]. intros (? & _). lia.
  - destruct (rowLength g a =? 9) eqn:Hlen; simpl.
    + apply Nat.eqb_eq in Hlen. rewrite Hlen.
      destruct (validateCells g a (seq 0 9)) as [e|] eqn:Hcells.
      * split.
        -- intros [= ->]. pose proof Hcells as ->%validateCells_other_row.
           apply validateCells_first in Hcells as (Hy & Hrej & Hbefore).
           split; [lia|]. split; [lia|]. split; [done|]. split; [done|].
           split; [intros y' ?; apply Hbefore; lia|]. intros x' ?. lia.
        -- intros (Hx & Hy & Hlenx & Hrej & Hbefore & Hrows).
           destruct (decide (x = a)) as [->|Hne].
           ++ rewrite <- Hcells. apply validateCells_first.
              split; [lia|]. split; [done|]. intros y' ?. apply Hbefore. lia.
           ++ destruct (Hrows a) as [_ Ha]; [lia|].
              apply (proj2 (validateCells_row _ _)) in Ha. congruence.
      * rewrite IH. pose proof (proj1 (validateCells_row _ _) Hcells) as Hrow.
        split.
        -- intros (Hx & Hy & Hlenx & Hrej & Hbefore & Hrows).
           split; [lia|]. do 4 (split; [done|]).
           intros x' Hx'. destruct (decide (x' = a)) as [->|]; [by split|].
           apply Hrows. lia.
        -- intros (Hx & Hy & Hlenx & Hrej & Hbefore & Hrows).
           destruct (decide (x = a)) as [->|Hne].
           { rewrite Hrow in Hrej by done. done. }
           split; [lia|]. do 4 (split; [done|]).
           intros x' Hx'. apply Hrows. lia.
    + apply Nat.eqb_neq in Hlen. split; [done|].
      intros (Hx & Hy & Hlenx & Hrej & Hbefore & Hrows).
      destruct (decide (x = a)) as [->|Hne]; [done|].
      destruct (Hrows a) as [Ha _]; [lia|done].
Qed.

(** X2.  The constructor fails with the constraint error at [(x, y)]
    exactly when the matrix has 9 rows, the rows up to [x] have 9 cells, the
    cell [(x, y)] fails the check of lines 120-126, and no cell before it in
    the order of the loops does: the coordinate reported is that of the first
    offending cell, row by row. *)
Theorem constraint_error_is_first_rejected (m : grid) (x y : nat) :
  Sudoku m = inl (ConstraintError x y) ↔
    length m = 9 ∧ x < 9 ∧ y < 9 ∧
    (∀ x', x' ≤ x → rowLength m x' = 9) ∧
    cellRejected m x y = true ∧
    ∀ x' y', rowMajorBefore x' y' x y → y' < 9 → cellRejected m x' y' = false.
Proof.
  assert (Sudoku m = inl (ConstraintError x y) ↔
          validate m = Some (ConstraintError x y)) as ->.
  { unfold Sudoku. destruct (validate m); split; congruence. }
  unfold validate. destruct (length m =? 9) eqn:Hlen; simpl.
  - apply Nat.eqb_eq in Hlen. rewrite Hlen, validateRows_first. split.
    + intros (Hx & Hy & Hlenx & Hrej & Hbefore & Hrows).
      split_and!; [done|lia|done| |done|].
      * intros x' Hx'. destruct (decide (x' = x)) as [->|]; [done|].
        apply Hrows. lia.
      * intros x' y' [Hlt|[-> Hlt]] Hy'; [|by apply Hbefore].
        destruct (Hrows x') as [_ Hcells]; [lia|]. by apply Hcells.
    + intros (_ & Hx & Hy & Hlens & Hrej & Hbefore).
      split; [lia|]. split; [done|]. split; [apply Hlens; lia|]. split; [done|].
      split.
      * intros y' Hy'. apply Hbefore; [right; by split|lia].
      * intros x' Hx'. split; [apply Hlens; lia|].
        intros y' Hy'. apply Hbefore; [left; lia|done].
  - apply Nat.eqb_neq in Hlen. split; [done|]. intros (? & _). done.
Qed.

(** X3.  What [solve] leaves behind is a matrix that the constructor
    accepts again, whatever the way [solve] ended. *)
Theorem solve_result_accepted (m : grid) (s : sudoku) (fuel : nat) :
  Sudoku m = inr s →
  Sudoku (values (solve fuel s).2) =
    inr {| values := values (solve fuel s).2; writes := [] |}.
Proof.
  unfold Sudoku at 1. destruct (validate m) eqn:Hv; [done|]. intros [= <-].
  unfold Sudoku. rewrite consistent_validate; [done|].
  apply solve_consistent. simpl. by apply validate_consistent.
Qed.

Lemma solve_result_accepted_witness :
  Sudoku (values (solve 2000 cornerGame).2) =
    inr {| values := values (solve 2000 cornerGame).2; writes := [] |}.
Proof.
  apply (solve_result_accepted cornerGrid cornerGame 2000).
  vm_compute. reflexivity.
Defined.

(** * Solutions and the sweep *)

Section solutions.
Implicit Types (g sol : grid) (s : sudoku) (x y : nat) (v w : number) (i : Z).
Implicit Types (U : list (nat * nat)).

Lemma isSolved_intro g :
  (∀ x y, cell g x y ≠ Some zero) → isSolved g = true.
Proof.
  intros H. unfold isSolved. apply forallb_forall. intros row Hrow.
  apply forallb_forall. intros v Hv.
  apply list_elem_of_In, list_elem_of_lookup in Hrow as [x Hx].
  apply list_elem_of_In, list_elem_of_lookup in Hv as [y Hy].
  apply negb_true_iff, strictEq_ne. intros ->.
  apply (H x y). unfold cell. by rewrite Hx.
Qed.

Lemma count_le_one_unique U (f : nat * nat → bool) (a b : nat * nat) :
  NoDup U → countWhere f U ≤ 1 → a ∈ U → b ∈ U →
  f a = true → f b = true → a = b.
Proof.
  intros Hnd Hle Ha Hb Hfa Hfb.
  destruct (decide (countWhere f U = 1)) as [H1|Hn1].
  - apply countWhere_one in H1 as (c & _ & _ & Huniq); [|done].
    rewrite (Huniq a), (Huniq b); done.
  - assert (countWhere f U = 0) as H0 by lia.
    rewrite countWhere_zero in H0. rewrite (H0 a Ha) in Hfa. done.
Qed.

(** A value that the solution has at an unfilled cell does not occur in a
    unit of that cell in the puzzle. *)
Lemma absent_in_partial g sol U U' x y v :
  givensKept g sol → cell g x y = Some zero → cell sol x y = Some v → v ≠ zero →
  NoDup U' → countWhere (cellIs sol v) U' ≤ 1 → (x, y) ∈ U' →
  (∀ p, p ∈ U → cell sol p.1 p.2 = Some v → p ∈ U') →
  countWhere (cellIs g v) U = 0.
Proof.
  intros Hkept Hg Hsol Hv Hnd Hle Hin Hsub.
  apply countWhere_zero. intros [x' y'] Hp.
  apply not_true_iff_false. intros His%cellIs_Some.
  pose proof (Hkept _ _ _ His Hv) as Hs'.
  assert ((x', y') = (x, y)) as [= -> ->].
  { apply (count_le_one_unique U' (cellIs sol v)); try done.
    - by apply (Hsub (x', y')).
    - by apply cellIs_Some.
    - by apply cellIs_Some. }
  congruence.
Qed.

Lemma legal_in_partial g sol x y v :
  consistent sol → givensKept g sol →
  cell g x y = Some zero → cell sol x y = Some v → v ≠ zero →
  isValueValidInPosition g x y v false = true.
Proof.
  intros Hsol Hkept Hg Hs Hv.
  assert (is_Some (cell sol x y)) as [Hx Hy]%cell_is_Some by (by rewrite Hs).
  unfold isValueValidInPosition, isValuePresentInRow, isValuePresentInColumn,
    isValuePresentInGroup, countValueInRow, countValueInColumn, countValueInGroup.
  rewrite (absent_in_partial g sol (rowCoords g x) (rowCoords sol x) x y v);
    try done.
  rewrite (absent_in_partial g sol (columnCoords g y) (columnCoords sol y) x y v);
    try done.
  rewrite (absent_in_partial g sol (groupCoords x y) (groupCoords x y) x y v);
    try done.
  - apply NoDup_groupCoords.
  - by apply (consistent_group sol Hsol).
  - apply elem_of_groupCoords_self.
  - apply NoDup_columnCoords.
  - by apply (consistent_column sol Hsol).
  - by apply elem_of_columnCoords.
  - intros [x' y'] [-> _]%elem_of_columnCoords Hc. simpl in Hc.
    apply elem_of_columnCoords. split; [done|].
    assert (is_Some (cell sol x' y)) as [? _]%cell_is_Some by (by rewrite Hc).
    done.
  - apply NoDup_rowCoords.
  - by apply (consistent_row sol Hsol).
  - by apply elem_of_rowCoords.
  - intros [x' y'] [-> _]%elem_of_rowCoords Hc. simpl in Hc.
    apply elem_of_rowCoords. split; [done|].
    assert (is_Some (cell sol x y')) as [_ ?]%cell_is_Some by (by rewrite Hc).
    done.
Qed.

Lemma group_inside r c x y :
  r < 9 → c < 9 → (x, y) ∈ groupCoords r c → x < 9 ∧ y < 9.
Proof.
  intros Hr Hc [Hx Hy]%elem_of_groupCoords.
  pose proof (Nat.div_mod_eq r 3). pose proof (Nat.mod_upper_bound r 3).
  pose proof (Nat.div_mod_eq c 3). pose proof (Nat.mod_upper_bound c 3).
  lia.
Qed.

Lemma cell_inside g x y :
  is9x9 g → is_Some (cell g x y) ↔ x < 9 ∧ y < 9.
Proof.
  intros [Hlen Hrows]. rewrite cell_is_Some, Hlen. split.
  - intros [Hx Hy]. rewrite Hrows in Hy by done. done.
  - intros [Hx Hy]. rewrite Hrows by done. done.
Qed.

(** The value that the sweep accepts at a cell is the value that every
    solution in integers has there. *)
Lemma sweep_value_forced g sol x y i :
  consistent g → integral sol → solutionOf g sol → cell g x y = Some zero →
  In i candidates → isValueValidInPosition g x y (ofZ i) true = true →
  cell sol x y = Some (ofZ i).
Proof.
  intros Hg Hint (Hsol & Hsolved & Hkept) Hc Hi Hvalid.
  pose proof (candidates_range i Hi) as Hrange.
  assert (x < 9 ∧ y < 9) as [Hx Hy].
  { apply (cell_inside g); [apply Hg|by rewrite Hc]. }
  apply valid_accepted in Hvalid as (Hrow0 & Hcol0 & Hgroup0 & p & Hp & Hq & Huniq).
  assert (p = (x, y)) as ->.
  { symmetry. apply Huniq; [apply elem_of_groupCoords_self|]. by split. }
  destruct (complete_units sol x y i Hsol Hint Hsolved Hx Hy Hrange)
    as (_ & _ & Hone).
  assert (0 < countWhere (cellIs sol (ofZ i)) (groupCoords x y)) as Hpos
    by (unfold countValueInGroup in Hone; lia).
  apply countWhere_pos in Hpos as ([x' y'] & Hin & His%cellIs_Some).
  destruct (group_inside x y x' y' Hx Hy Hin) as [Hx' Hy'].
  assert (is_Some (cell g x' y')) as [w Hw]
    by (apply (cell_inside g); [apply Hg|done]).
  assert (w = zero) as ->.
  { destruct (decide (w = zero)) as [|Hne]; [done|]. exfalso.
    pose proof (Hkept _ _ _ Hw Hne) as Hs. rewrite His in Hs. injection Hs as <-.
    unfold countValueInGroup in Hgroup0. rewrite countWhere_zero in Hgroup0.
    specialize (Hgroup0 (x', y') Hin).
    apply not_true_iff_false in Hgroup0. apply Hgroup0. by apply cellIs_Some. }
  assert ((x', y') = (x, y)) as [= -> ->]; [|done].
  apply Huniq; [done|].
  destruct (valid_counts g x' y' (ofZ i) false) as (? & ? & _); [|by split].
  apply (legal_in_partial g sol); try done. rewrite ofZ_zero. lia.
Qed.

Lemma solutionOf_setCell g sol x y w :
  solutionOf g sol → cell sol x y = Some w → solutionOf (setCell g x y w) sol.
Proof.
  intros (Hsol & Hsolved & Hkept) Hc. split_and!; [done..|].
  intros x' y' v. rewrite cell_setCell. case_decide as Hd; [|apply Hkept].
  destruct Hd as (-> & -> & _). intros [= <-] _. done.
Qed.

Lemma sweepCell_solution sol acc x y :
  integral sol →
  consistent (values acc.1) ∧ solutionOf (values acc.1) sol →
  consistent (values (sweepCell acc x y).1) ∧
  solutionOf (values (sweepCell acc x y).1) sol.
Proof.
  intros Hint [Hg Hs]. split; [by apply sweepCell_consistent|].
  unfold sweepCell.
  destruct (cellIs (values acc.1) zero (x, y)) eqn:Hc; [|done].
  apply cellIs_Some in Hc.
  destruct (find _ candidates) as [i|] eqn:Hfind; [|done].
  apply find_some in Hfind as [Hi Hvalid]. simpl.
  apply solutionOf_setCell; [done|]. by apply (sweep_value_forced (values acc.1)).
Qed.

Lemma sweepRow_solution sol acc x :
  integral sol →
  consistent (values acc.1) ∧ solutionOf (values acc.1) sol →
  consistent (values (sweepRow acc x).1) ∧
  solutionOf (values (sweepRow acc x).1) sol.
Proof.
  intros Hint. unfold sweepRow. generalize (seq 0 (rowLength (values acc.1) x)). intros ys.
  revert acc. induction ys as [|y ys IH]; intros acc H; simpl; [done|].
  by apply IH, sweepCell_solution.
Qed.

Lemma sweep_solution sol s :
  integral sol →
  consistent (values s) ∧ solutionOf (values s) sol →
  consistent (values (sweep s).1) ∧ solutionOf (values (sweep s).1) sol.
Proof.
  intros Hint. unfold sweep. generalize (seq 0 (length (values s))). intros xs.
  change (values s) with (values (s, false).1) at 1 2.
  generalize (s, false). intros acc. revert acc.
  induction xs as [|x xs IH]; intros acc H; simpl; [done|].
  by apply IH, sweepRow_solution.
Qed.

Lemma propagate_solution sol fuel s :
  integral sol →
  consistent (values s) ∧ solutionOf (values s) sol →
  consistent (values (propagate fuel s).2) ∧
  solutionOf (values (propagate fuel s).2) sol.
Proof.
  intros Hint. revert s. induction fuel as [|fuel IH]; intros s H; simpl.
  - by destruct (isSolved (values s)).
  - destruct (isSolved (values s)); [done|].
    pose proof (sweep_solution sol s Hint H).
    destruct (sweep s).2; [by apply IH|done].
Qed.
End solutions.

Lemma givensKeptb_spec (g sol : grid) :
  givensKeptb g sol = true → givensKept g sol.
Proof.
  unfold givensKeptb. rewrite forallb_forall. intros H x y v Hc Hv.
  specialize (H (x, y)). simpl in H. rewrite Hc in H.
  assert (strictEq v zero || cellIs sol v (x, y) = true) as Hb.
  { apply H, list_elem_of_In, elem_of_allCoords. by rewrite Hc. }
  apply orb_true_iff in Hb as [Hz%strictEq_eq|Hb]; [done|]. by apply cellIs_Some.
Qed.

(** X4.  The sweeps only write forced values: every solution in integers
    (a complete consistent matrix whose cells are all integers and that
    keeps the givens) of the matrix that the constructor accepted is still a
    solution of the matrix that the sweeps leave, so the sweeps never make a
    puzzle that has a solution in integers unsolvable.  (A complete
    consistent matrix that holds a number which is not an integer can be
    lost: the rule of the sweep counts on every value from 1 to 9 occurring
    in every group.) *)
Theorem sweeps_keep_solutions (m : grid) (s : sudoku) (fuel : nat) (sol : grid) :
  Sudoku m = inr s → solutionOf m sol → integral sol →
  solutionOf (values (propagate fuel s).2) sol.
Proof.
  unfold Sudoku. destruct (validate m) eqn:Hv; [done|]. intros [= <-] Hsol Hint.
  apply propagate_solution; [done|].
  simpl. split; [by apply validate_consistent|done].
Qed.

Lemma sweeps_keep_solutions_witness :
  solutionOf (values (propagate 100 game1).2) solved1.
Proof.
  apply (sweeps_keep_solutions values1 game1 100 solved1).
  - vm_compute. reflexivity.
  - split_and!.
    + apply validate_consistent. vm_compute. reflexivity.
    + vm_compute. reflexivity.
    + apply givensKeptb_spec. vm_compute. reflexivity.
  - apply integral_ofRows.
Defined.

(** * What the search finds *)

Section search_outcome.
Implicit Types (g sol : grid) (s : sudoku) (st : search) (p q : Position.t).
Implicit Types (x y k j n : nat) (i v : Z) (w : number).

Lemma other_entry_cell g st k p j q w :
  searchInv st → unfilledPositions st !! k = Some p →
  unfilledPositions st !! j = Some q → j ≠ k →
  cellAt (setCell g (Position.x p) (Position.y p) w) q = cellAt g q.
Proof.
  intros Hinv Hp Hq Hjk. unfold cellAt. apply cell_setCell_ne.
  apply not_eq_sym.
  apply (distinct_coords st j k p q); [apply Hinv|done..].
Qed.

Lemma searchTail_start s : searchTail (searchStart s).
Proof.
  intros j p _ Hp. simpl in Hp.
  by apply elem_of_getUnfilledPositions, list_elem_of_lookup_2 with j.
Qed.

Lemma step_searchTail st st' :
  searchInv st → searchTail st → step st = Continue st' → searchTail st'.
Proof.
  intros Hinv Htail Hstep.
  destruct (step_searchInv st st' Hinv Hstep)
    as (k & p & Hk & Hp & _ & [(i & _ & ->)|(_ & ->)]);
    intros j q Hj Hq; simpl in *; rewrite Hk, Nat2Z.id in Hq.
  - rewrite list_lookup_insert_ne in Hq by lia.
    rewrite !(other_entry_cell _ st k p j q) by (done || lia).
    apply (Htail j q); [lia|done].
  - destruct (decide (j = k)) as [->|Hjk].
    + rewrite list_lookup_insert_eq in Hq by (by eapply lookup_lt_Some).
      injection Hq as <-. split; [|done]. unfold cellAt. simpl.
      apply cell_setCell_eq, is_Some_cell_setCell.
      destruct Hinv as [Hin _ _ _]. apply (Forall_lookup_1 _ _ _ _ Hin Hp).
    + rewrite list_lookup_insert_ne in Hq by done.
      rewrite !(other_entry_cell _ st k p j q) by done.
      apply (Htail j q); [lia|done].
Qed.

Lemma step_searchGood s1 st st' :
  searchGood s1 st → step st = Continue st' → searchGood s1 st'.
Proof.
  intros (Hinv & Htail & Hfrom) Hstep. split_and!.
  - by destruct (step_searchInv st st' Hinv Hstep) as (? & ? & ? & ? & ? & _).
  - by eapply step_searchTail.
  - by eapply step_searched.
Qed.

Lemma searchGood_start s : searchGood s (searchStart s).
Proof.
  split_and!; [apply searchInv_start|apply searchTail_start|apply searchedFrom_start].
Qed.

Lemma length_replay (ws : list write) g : length (replay ws g) = length g.
Proof.
  revert g. induction ws as [|w ws IH]; intros g; simpl; [done|].
  by rewrite IH, length_setCell.
Qed.

(** The search leaves the cells that it did not list as they are. *)
Lemma search_frame s1 st x y :
  searchedFrom s1 st → (x, y) ∉ coords <$> getUnfilledPositions (values s1) →
  cell (values (game st)) x y = cell (values s1) x y.
Proof.
  intros (_ & ws & [_ ->] & Hws) Hout. apply replay_frame.
  eapply Forall_impl; [exact Hws|]. simpl. intros w Hw Heq.
  rewrite Heq in Hw. done.
Qed.

Lemma listed_is_unfilled g x y :
  (x, y) ∈ coords <$> getUnfilledPositions g → cell g x y = Some zero.
Proof.
  intros (p & [= -> ->] & [Hp _]%elem_of_getUnfilledPositions)%list_elem_of_fmap.
  done.
Qed.

Lemma unfilled_is_listed g x y :
  x < length g → y < length g → cell g x y = Some zero →
  (x, y) ∈ coords <$> getUnfilledPositions g.
Proof.
  intros Hx Hy Hc. apply list_elem_of_fmap. exists (Position.mk x y []).
  split; [done|]. unfold getUnfilledPositions.
  apply list_elem_of_In, in_flat_map. exists x.
  split; [apply list_elem_of_In, elem_of_seq; lia|].
  apply in_flat_map. exists y.
  split; [apply list_elem_of_In, elem_of_seq; lia|].
  apply cellIs_Some in Hc. rewrite Hc. by left.
Qed.

Lemma listed_entry st x y :
  (x, y) ∈ coords <$> unfilledPositions st →
  ∃ j q, unfilledPositions st !! j = Some q ∧
         Position.x q = x ∧ Position.y q = y.
Proof.
  intros (q & [= -> ->] & [j Hj]%list_elem_of_lookup)%list_elem_of_fmap.
  by exists j, q.
Qed.

(** When the index has passed the last position the matrix is complete. *)
Lemma break_solved s1 st :
  is9x9 (values s1) → searchGood s1 st →
  (Z.of_nat (length (unfilledPositions st)) ≤ nextIndex st)%Z →
  isSolved (values (game st)) = true.
Proof.
  intros Hshape (Hinv & _ & Hfrom) Hend. apply isSolved_intro. intros x y Hc.
  destruct (decide ((x, y) ∈ coords <$> unfilledPositions st)) as [Hin|Hout].
  - destruct (listed_entry st x y Hin) as (j & q & Hq & <- & <-).
    destruct Hinv as [_ Ht _ Hheld].
    destruct (Hheld j q) as (v & Hv & Hvt); [|done|].
    { apply lookup_lt_Some in Hq. lia. }
    destruct (Forall_lookup_1 _ _ _ _ Ht Hq) as [_ Hcand].
    apply Hcand, candidates_range in Hvt. unfold cellAt in Hv.
    rewrite Hc in Hv. assert (v = 0%Z) by (apply ofZ_inj; congruence). lia.
  - pose proof Hfrom as [Hups _]. rewrite Hups in Hout.
    rewrite (search_frame s1 st x y Hfrom Hout) in Hc.
    apply Hout. destruct Hshape as [Hlen Hrows].
    assert (is_Some (cell (values s1) x y)) as [Hx Hy]%cell_is_Some
      by (by rewrite Hc).
    rewrite Hlen in Hx. rewrite Hrows in Hy by done.
    apply unfilled_is_listed; [lia..|done].
Qed.

Lemma grid_ext g g' :
  length g = length g' → (∀ x y, cell g x y = cell g' x y) → g = g'.
Proof.
  intros Hlen Hcells. apply list_eq. intros x.
  destruct (g !! x) as [row|] eqn:Hrow, (g' !! x) as [row'|] eqn:Hrow'.
  - f_equal. apply list_eq. intros y. specialize (Hcells x y).
    unfold cell in Hcells. by rewrite Hrow, Hrow' in Hcells.
  - apply lookup_lt_Some in Hrow. apply lookup_ge_None in Hrow'. lia.
  - apply lookup_lt_Some in Hrow'. apply lookup_ge_None in Hrow. lia.
  - done.
Qed.

(** When the index is below 0 the matrix is the one the search started on. *)
Lemma throw_restored s1 st :
  searchGood s1 st → (nextIndex st < 0)%Z → values (game st) = values s1.
Proof.
  intros (Hinv & Htail & Hfrom) Hneg. apply grid_ext.
  - destruct Hfrom as (_ & ws & [_ ->] & _). apply length_replay.
  - intros x y.
    destruct (decide ((x, y) ∈ coords <$> unfilledPositions st)) as [Hin|Hout].
    + destruct (listed_entry st x y Hin) as (j & q & Hq & <- & <-).
      destruct (Htail j q) as [Hz _]; [lia|done|].
      destruct Hfrom as [Hups _]. rewrite Hups in Hin.
      apply listed_is_unfilled in Hin. unfold cellAt in Hz. congruence.
    + pose proof Hfrom as [Hups _]. rewrite Hups in Hout.
      by apply search_frame.
Qed.

Lemma searchLoop_outcome s1 fuel st :
  is9x9 (values s1) → searchGood s1 st →
  match (searchLoop fuel st).1 with
  | Returned => isSolved (values (searchLoop fuel st).2) = true
  | Threw => values (searchLoop fuel st).2 = values s1
  | OutOfFuel => True
  end.
Proof.
  intros Hshape. revert st. induction fuel as [|fuel IH]; intros st Hgood; simpl; [done|].
  destruct (step_inversion st) as [[Hs Hend]|[[Hs Hneg]|(k & p & _ & _ & Hcases)]].
  - rewrite Hs. simpl. by apply (break_solved s1).
  - rewrite Hs. simpl. by apply throw_restored.
  - destruct (step st) as [st'| |] eqn:Hstep.
    + apply IH. by eapply step_searchGood.
    + destruct Hcases as [(? & _ & ?)|[(_ & _ & ?)|(_ & _ & ?)]]; done.
    + destruct Hcases as [(? & _ & ?)|[(_ & _ & ?)|(_ & _ & ?)]]; done.
Qed.

Lemma isValueTested_false (l : list Z) v : v ∉ l → isValueTested l v = false.
Proof.
  intros Hv. unfold isValueTested. apply not_true_iff_false.
  intros (t & Ht & ->%Z.eqb_eq)%existsb_exists.
  by apply Hv, list_elem_of_In.
Qed.

Lemma candidates_In v : (1 ≤ v ≤ 9)%Z → In v candidates.
Proof. unfold candidates. simpl. lia. Qed.

(** A step keeps the search on the track of a solution. *)
Lemma step_onTrack s1 sol st st' :
  is9x9 (values s1) → solutionOf (values s1) sol → integral sol →
  searchGood s1 st → onTrack sol st → step st = Continue st' →
  onTrack sol st'.
Proof.
  intros Hshape (Hsol & Hsolved & Hkept) Hint (Hinv & Htail & Hfrom)
    (d & Hd & Hpre & Hnot) Hstep.
  destruct (step_searchInv st st' Hinv Hstep) as (k & p & Hk & Hp & _ & Hcase).
  assert (is_Some (cellAt (values (game st)) p)) as Hinside.
  { destruct Hinv as [Hin _ _ _]. apply (Forall_lookup_1 _ _ _ _ Hin Hp). }
  assert (k < length (unfilledPositions st)) as Hklen by (by eapply lookup_lt_Some).
  destruct (decide (d = k)) as [->|Hdk].
  - (* the index is at the first position that differs from the solution *)
    assert (cell (values s1) (Position.x p) (Position.y p) = Some zero) as Hp0.
    { apply listed_is_unfilled. destruct Hfrom as [<- _].
      apply (list_elem_of_fmap_2 coords). by eapply list_elem_of_lookup_2. }
    assert (Position.x p < 9 ∧ Position.y p < 9) as [Hx Hy].
    { apply (cell_inside (values s1)); [done|by rewrite Hp0]. }
    destruct (filled_cell sol _ _ Hsol Hint Hsolved Hx Hy) as (v & Hv & Hrange).
    set (g' := values (game (clearCurrent st p))) in *.
    assert (cell g' (Position.x p) (Position.y p) = Some zero) as Hg'0.
    { unfold g'. simpl. by apply cell_setCell_eq. }
    assert (givensKept g' sol) as Hkept'.
    { intros x y w Hc Hw.
      destruct (decide ((x, y) = coords p)) as [[= -> ->]|Hne]; [congruence|].
      unfold g' in Hc. simpl in Hc. rewrite cell_setCell_ne in Hc by done.
      destruct (decide ((x, y) ∈ coords <$> unfilledPositions st)) as [Hin|Hout].
      - destruct (listed_entry st x y Hin) as (j & q & Hq & <- & <-).
        destruct (decide (j < k)) as [Hlt|Hge].
        + rewrite <- Hc. symmetry. by apply (Hpre j q).
        + destruct (decide (j = k)) as [->|Hjk].
          { rewrite Hp in Hq. injection Hq as <-. by destruct Hne. }
          destruct (Htail j q) as [Hz _]; [lia|done|].
          unfold cellAt in Hz. congruence.
      - pose proof Hfrom as [Hups _]. rewrite Hups in Hout.
        rewrite (search_frame s1 st x y Hfrom Hout) in Hc. by apply Hkept. }
    assert (isValueValidInPosition g' (Position.x p) (Position.y p) (ofZ v) false
            = true) as Hvalid.
    { apply (legal_in_partial g' sol); try done. rewrite ofZ_zero. lia. }
    assert (v ∉ Position.valuesTested p) as Hfresh by (by apply (Hnot p v)).
    destruct Hcase as [(i & Hf & ->)|(Hf & _)].
    2:{ unfold firstUntested in Hf.
        pose proof (find_none _ _ Hf v (candidates_In v Hrange)) as Hn.
        simpl in Hn. fold g' in Hn.
        rewrite Hvalid, isValueTested_false in Hn by done. done. }
    destruct (decide (i = v)) as [->|Hiv].
    + exists (S k). simpl. rewrite Hk, Nat2Z.id. split_and!; [lia| |].
      * intros j q Hj Hq. destruct (decide (j = k)) as [->|Hjk].
        -- rewrite list_lookup_insert_eq in Hq by done. injection Hq as <-.
           unfold cellAt. simpl. rewrite Hv.
           by apply cell_setCell_eq, is_Some_cell_setCell.
        -- rewrite list_lookup_insert_ne in Hq by done.
           rewrite !(other_entry_cell _ st k p j q) by done.
           apply (Hpre j q); [lia|done].
      * intros q w Hq _. rewrite list_lookup_insert_ne in Hq by lia.
        destruct (Htail (S k) q) as [_ ->]; [lia|done|]. apply not_elem_of_nil.
    + exists k. simpl. rewrite Hk, Nat2Z.id. split_and!; [lia| |].
      * intros j q Hj Hq. rewrite list_lookup_insert_ne in Hq by lia.
        rewrite !(other_entry_cell _ st k p j q) by (done || lia).
        by apply (Hpre j q).
      * intros q w Hq Hw. rewrite list_lookup_insert_eq in Hq by done.
        injection Hq as <-. unfold cellAt in Hw. simpl in *.
        rewrite Hv in Hw. assert (w = v) as -> by (apply ofZ_inj; congruence).
        intros [Hin| ->%list_elem_of_singleton]%elem_of_app; done.
  - (* the index is further on *)
    exists d.
    destruct Hcase as [(i & _ & ->)|(_ & ->)]; simpl; rewrite Hk, Nat2Z.id;
      (split_and!; [lia| |]).
    + intros j q Hj Hq. rewrite list_lookup_insert_ne in Hq by lia.
      rewrite !(other_entry_cell _ st k p j q) by (done || lia).
      by apply (Hpre j q).
    + intros q w Hq. rewrite list_lookup_insert_ne in Hq by lia.
      by apply (Hnot q w).
    + intros j q Hj Hq. rewrite list_lookup_insert_ne in Hq by lia.
      rewrite !(other_entry_cell _ st k p j q) by (done || lia).
      by apply (Hpre j q).
    + intros q w Hq. rewrite list_lookup_insert_ne in Hq by lia.
      by apply (Hnot q w).
Qed.

Lemma onTrack_start s sol : onTrack sol (searchStart s).
Proof.
  exists 0. split_and!; [done|intros; lia|].
  intros p v Hp _. simpl in Hp.
  destruct (elem_of_getUnfilledPositions (values s) p) as [_ ->].
  - by eapply list_elem_of_lookup_2.
  - apply not_elem_of_nil.
Qed.

(** With a solution ahead, the search does not end in the [TypeError]. *)
Lemma searchLoop_no_throw s1 sol fuel st :
  is9x9 (values s1) → solutionOf (values s1) sol → integral sol →
  searchGood s1 st → onTrack sol st → (searchLoop fuel st).1 ≠ Threw.
Proof.
  intros Hshape Hsol Hint. revert st.
  induction fuel as [|fuel IH]; intros st Hgood Htrack; simpl; [done|].
  destruct (step st) as [st'|s'|s'] eqn:Hstep; simpl; [|done|].
  - apply IH; [by eapply step_searchGood|by eapply step_onTrack].
  - destruct Htrack as (d & Hd & _).
    destruct (step_inversion st) as [[Hs _]|[[_ Hneg]|(k & p & _ & _ & Hcases)]];
      [congruence|lia|].
    destruct Hcases as [(? & _ & ?)|[(_ & _ & ?)|(_ & _ & ?)]]; congruence.
Qed.
End search_outcome.

(** * What [solve] finds *)

Lemma solve_givensKept (s : sudoku) (fuel : nat) :
  givensKept (values s) (values (solve fuel s).2).
Proof.
  destruct (solve_writes fuel s) as (ws1 & ws2 & [_ Hv1] & [_ Hv] & Hws1 & Hws2).
  rewrite Hv1 in Hws2. rewrite Hv.
  apply replay_keeps_givens. by apply writes_to_original_zeros.
Qed.

(** How [solve] can end on a consistent matrix: normally with a complete
    matrix, or by the [TypeError] with the matrix that the sweeps left. *)
Lemma solve_outcome (s : sudoku) (fuel : nat) :
  consistent (values s) →
  match (solve fuel s).1 with
  | Returned => isSolved (values (solve fuel s).2) = true
  | Threw => values (solve fuel s).2 = values (propagate fuel s).2 ∧
             isSolved (values (propagate fuel s).2) = false
  | OutOfFuel => True
  end.
Proof.
  intros Hg. unfold solve, solveByTrialAndError.
  pose proof (propagate_consistent fuel s Hg) as Hg1.
  pose proof (propagate_not_Threw fuel s) as Hnt.
  destruct (propagate fuel s) as [[| |] s1]; simpl in *; [|done..].
  destruct (isSolved (values s1)) eqn:Hsolved; simpl; [done|].
  pose proof (searchLoop_outcome s1 fuel (searchStart s1)
                (consistent_shape _ Hg1) (searchGood_start s1)) as Hout.
  destruct (searchLoop fuel (searchStart s1)) as [[| |] s2]; simpl in *; done.
Qed.

Lemma solve_returned_solution (s : sudoku) (fuel : nat) :
  consistent (values s) → (solve fuel s).1 = Returned →
  solutionOf (values s) (values (solve fuel s).2).
Proof.
  intros Hg Hret. split_and!.
  - by apply solve_consistent.
  - pose proof (solve_outcome s fuel Hg) as Hout. by rewrite Hret in Hout.
  - apply solve_givensKept.
Qed.

Lemma solve_no_throw (s : sudoku) (fuel : nat) (sol : grid) :
  consistent (values s) → solutionOf (values s) sol → integral sol →
  (solve fuel s).1 ≠ Threw.
Proof.
  intros Hg Hsol Hint. unfold solve, solveByTrialAndError.
  destruct (propagate_solution sol fuel s Hint (conj Hg Hsol)) as [Hg1 Hsol1].
  pose proof (propagate_not_Threw fuel s) as Hnt.
  destruct (propagate fuel s) as [[| |] s1]; simpl in *; [|done..].
  destruct (negb _); [|done].
  apply (searchLoop_no_throw s1 sol);
    [apply Hg1|done|done|apply searchGood_start|apply onTrack_start].
Qed.

(** A matrix that has a solution in integers holds integers only. *)
Lemma givensKept_integral (g sol : grid) :
  givensKept g sol → integral sol → integral g.
Proof.
  intros Hkept Hint x y v Hc.
  destruct (decide (v = zero)) as [->|Hne]; [done|].
  apply (Hint x y). by apply Hkept.
Qed.

Lemma accepted_consistent (m : grid) (s : sudoku) :
  Sudoku m = inr s → values s = m ∧ consistent m.
Proof.
  unfold Sudoku. destruct (validate m) eqn:Hv; [done|]. intros [= <-].
  split; [done|]. by apply validate_consistent.
Qed.

(** X5.  When [solve] returns normally on a matrix that the constructor
    accepted, the matrix it leaves is a solution of the puzzle: complete,
    consistent, and with every given in its place. *)
Theorem solve_returned_is_solution (m : grid) (s : sudoku) (fuel : nat) :
  Sudoku m = inr s → (solve fuel s).1 = Returned →
  solutionOf m (values (solve fuel s).2).
Proof.
  intros [<- Hg]%accepted_consistent Hret. by apply solve_returned_solution.
Qed.

Lemma solve_returned_is_solution_witness :
  solutionOf cornerGrid (values (solve 2000 cornerGame).2).
Proof.
  apply (solve_returned_is_solution cornerGrid cornerGame 2000);
    vm_compute; reflexivity.
Defined.

(** X6.  If the matrix that the constructor accepted has a solution in
    integers (a complete consistent matrix whose cells are all integers and
    that keeps the givens), then [solve] ends by returning normally, and the
    matrix it leaves is a solution in integers; if the solution in integers
    is the only one, that is the one it leaves. *)
Theorem solve_finds_solution (m : grid) (s : sudoku) (sol : grid) :
  Sudoku m = inr s → solutionOf m sol → integral sol →
  ∃ n, ∀ fuel, n ≤ fuel →
    (solve fuel s).1 = Returned ∧
    solutionOf m (values (solve fuel s).2) ∧
    integral (values (solve fuel s).2) ∧
    ((∀ sol', solutionOf m sol' → integral sol' → sol' = sol) →
     values (solve fuel s).2 = sol).
Proof.
  intros [<- Hg]%accepted_consistent Hsol Hint.
  destruct (solve_terminates s) as [n Hn]. exists n. intros fuel Hfuel.
  destruct (Hn fuel Hfuel) as [Hne _].
  pose proof (solve_no_throw s fuel sol Hg Hsol Hint) as Hnt.
  assert ((solve fuel s).1 = Returned) as Hret
    by (destruct (solve fuel s).1; done).
  pose proof (solve_returned_solution s fuel Hg Hret) as Hfound.
  assert (integral (values (solve fuel s).2)) as Hint'.
  { apply solve_integral. apply (givensKept_integral _ sol); [apply Hsol|done]. }
  split_and!; [done..|]. intros Huniq. by apply Huniq.
Qed.

Lemma solve_finds_solution_witness :
  ∃ n, ∀ fuel, n ≤ fuel →
    (solve fuel game1).1 = Returned ∧
    solutionOf values1 (values (solve fuel game1).2) ∧
    integral (values (solve fuel game1).2) ∧
    ((∀ sol', solutionOf values1 sol' → integral sol' → sol' = solved1) →
     values (solve fuel game1).2 = solved1).
Proof.
  apply (solve_finds_solution values1 game1 solved1).
  - vm_compute. reflexivity.
  - split_and!.
    + apply validate_consistent. vm_compute. reflexivity.
    + vm_compute. reflexivity.
    + apply givensKeptb_spec. vm_compute. reflexivity.
  - apply integral_ofRows.
Defined.

(** X7.  When [solve] ends by the [TypeError] on a matrix that the
    constructor accepted, the puzzle has no solution in integers (no
    complete consistent matrix whose cells are all integers keeps the
    givens), and the matrix is left as the sweeps left it, every cell that
    the search had written being 0 again; it is not complete. *)
Theorem solve_throws_only_unsolvable (m : grid) (s : sudoku) (fuel : nat) :
  Sudoku m = inr s → (solve fuel s).1 = Threw →
  (∀ sol, solutionOf m sol → ¬ integral sol) ∧
  values (solve fuel s).2 = values (propagate fuel s).2 ∧
  isSolved (values (solve fuel s).2) = false.
Proof.
  intros [<- Hg]%accepted_consistent Hthrew.
  pose proof (solve_outcome s fuel Hg) as Hout. rewrite Hthrew in Hout.
  destruct Hout as [Heq Hunsolved]. split_and!; [|done|by rewrite Heq].
  intros sol Hsol Hint. by apply (solve_no_throw s fuel sol Hg Hsol Hint).
Qed.

Lemma solve_throws_only_unsolvable_witness :
  (∀ sol, solutionOf deadEndGrid sol → ¬ integral sol) ∧
  values (solve 2 deadEndGame).2 = values (propagate 2 deadEndGame).2 ∧
  isSolved (values (solve 2 deadEndGame).2) = false.
Proof.
  apply (solve_throws_only_unsolvable deadEndGrid deadEndGame 2);
    vm_compute; reflexivity.
Defined.

(** * More about the sweeps *)

Section sweep_more.
Implicit Types (g : grid) (s : sudoku) (x y : nat) (i : Z).

Lemma sweepCell_unchanged acc x y :
  (sweepCell acc x y).2 = false → sweepCell acc x y = acc.
Proof.
  unfold sweepCell. destruct (cellIs (values acc.1) zero (x, y)); [|done].
  destruct (find _ candidates); [done|done].
Qed.

Lemma fold_unchanged {A B} (f : A * bool → B → A * bool) (l : list B) acc :
  (∀ a b, (f a b).2 = false → f a b = a) →
  (fold_left f l acc).2 = false → fold_left f l acc = acc.
Proof.
  intros Hf. revert acc. induction l as [|b l IH]; intros acc H; simpl in *; [done|].
  pose proof (IH _ H) as E. rewrite E in H. rewrite E. by apply Hf.
Qed.

Lemma sweepRow_unchanged acc x :
  (sweepRow acc x).2 = false → sweepRow acc x = acc.
Proof.
  unfold sweepRow. apply fold_unchanged. intros a y. apply sweepCell_unchanged.
Qed.

Lemma sweep_unchanged s : (sweep s).2 = false → sweep s = (s, false).
Proof.
  unfold sweep. apply fold_unchanged. intros a x. apply sweepRow_unchanged.
Qed.

Lemma length_flat_map_le {A B} (f : A → list B) (l : list A) (n : nat) :
  (∀ a, a ∈ l → length (f a) ≤ n) → length (flat_map f l) ≤ n * length l.
Proof.
  induction l as [|a l IH]; intros H; simpl; [lia|].
  rewrite length_app.
  assert (length (f a) ≤ n) by (apply H; by left).
  assert (length (flat_map f l) ≤ n * length l)
    by (apply IH; intros b Hb; apply H; by right).
  lia.
Qed.

Lemma countWhere_length {A} (f : A → bool) (l : list A) :
  countWhere f l ≤ length l.
Proof. induction l as [|a l IH]; simpl; [done|]. destruct (f a); lia. Qed.

Lemma zeros_le_81 g : is9x9 g → zeros g ≤ 81.
Proof.
  intros [Hlen Hrows]. unfold zeros. etrans; [apply countWhere_length|].
  unfold allCoords.
  etrans; [apply (length_flat_map_le _ _ 9)|rewrite length_seq, Hlen; lia].
  intros x Hx%elem_of_seq. unfold rowCoords.
  rewrite length_fmap, length_seq, Hrows; lia.
Qed.
End sweep_more.

Lemma propagate_fixed (s : sudoku) (fuel : nat) :
  (propagate fuel s).1 = Returned →
  isSolved (values (propagate fuel s).2) = true ∨
  sweep (propagate fuel s).2 = ((propagate fuel s).2, false).
Proof.
  revert s. induction fuel as [|fuel IH]; intros s; simpl.
  - destruct (isSolved (values s)) eqn:Hs; [by left|done].
  - destruct (isSolved (values s)) eqn:Hs; [by left|].
    destruct (sweep s).2 eqn:Hflag; [apply IH|].
    intros _. right. rewrite (sweep_unchanged s Hflag). simpl.
    by apply sweep_unchanged.
Qed.

(** X8.  When the loop of sweeps is left, either the matrix is complete or
    a further sweep would change nothing: the sweeps are carried to their
    fixed point. *)
Theorem sweeps_reach_fixed_point (s : sudoku) (fuel : nat) :
  (propagate fuel s).1 = Returned →
  isSolved (values (propagate fuel s).2) = true ∨
  sweep (propagate fuel s).2 = ((propagate fuel s).2, false).
Proof. apply propagate_fixed. Qed.

Lemma sweeps_reach_fixed_point_witness :
  isSolved (values (propagate 1 cornerGame).2) = true ∨
  sweep (propagate 1 cornerGame).2 = ((propagate 1 cornerGame).2, false).
Proof.
  apply (sweeps_reach_fixed_point cornerGame 1). vm_compute. reflexivity.
Defined.

(** X9.  On a matrix that the constructor accepted, the loop of sweeps is
    left after at most one pass more than there are unfilled cells, so
    within 82 passes: every pass but the last fills a cell. *)
Theorem sweep_passes_bounded (m : grid) (s : sudoku) (fuel : nat) :
  Sudoku m = inr s → zeros m < fuel ∨ 81 < fuel →
  (propagate fuel s).1 = Returned.
Proof.
  intros [<- Hg]%accepted_consistent Hfuel. apply propagate_terminates.
  pose proof (zeros_le_81 _ (consistent_shape _ Hg)). lia.
Qed.

Lemma sweep_passes_bounded_witness : (propagate 82 game1).1 = Returned.
Proof.
  apply (sweep_passes_bounded values1 game1 82); [vm_compute; reflexivity|lia].
Defined.

(** X10.  At an unfilled cell the sweep accepts a value exactly when the
    value is legal there (absent from the row, the column and the group) and
    no other cell of the group can hold it: the rule is the "only place in
    the group" rule. *)
Theorem sweep_rule_only_place (g : grid) (x y : nat) (v : number) :
  cell g x y = Some zero →
  isValueValidInPosition g x y v true = true ↔
    isValueValidInPosition g x y v false = true ∧
    ∀ q, q ∈ groupCoords x y → q ≠ (x, y) → canHold g v q = false.
Proof.
  intros Hc. rewrite valid_accepted. split.
  - intros (Hrow & Hcol & Hgroup & p & Hp & Hq & Huniq).
    assert (p = (x, y)) as ->.
    { symmetry. apply Huniq; [apply elem_of_groupCoords_self|by split]. }
    split.
    + unfold isValueValidInPosition, isValuePresentInRow,
        isValuePresentInColumn, isValuePresentInGroup.
      by rewrite Hrow, Hcol, Hgroup.
    + intros q Hin Hne. apply not_true_iff_false.
      intros Hhold%canHold_qualifies. by apply Hne, Huniq.
  - intros [(Hrow & Hcol & Hgroup)%valid_counts Hothers].
    split_and!; [done..|]. exists (x, y).
    split_and!; [apply elem_of_groupCoords_self|by split|].
    intros q Hin Hq%canHold_qualifies.
    destruct (decide (q = (x, y))) as [|Hne]; [done|].
    rewrite Hothers in Hq by done. done.
Qed.

Lemma sweep_rule_only_place_witness :
  isValueValidInPosition values1 0 5 (ofZ 9) true = true ↔
    isValueValidInPosition values1 0 5 (ofZ 9) false = true ∧
    ∀ q, q ∈ groupCoords 0 5 → q ≠ (0, 5) → canHold values1 (ofZ 9) q = false.
Proof.
  apply (sweep_rule_only_place values1 0 5 (ofZ 9)). vm_compute. reflexivity.
Defined.

(** * The list of unfilled positions *)

Lemma sorted_flat_map {A B} (R : relation B) (lt : relation A)
    (f : A → list B) (l : list A) :
  StronglySorted lt l → (∀ a, StronglySorted R (f a)) →
  (∀ a a' b b', lt a a' → b ∈ f a → b' ∈ f a' → R b b') →
  StronglySorted R (flat_map f l).
Proof.
  intros Hl Hf Hcross. induction Hl as [|a l Hl IH Ha]; simpl; [constructor|].
  apply StronglySorted_app_2; [|done..].
  intros b b' Hb Hb'. apply list_elem_of_In, in_flat_map in Hb' as (a' & Ha' & Hin).
  apply list_elem_of_In in Ha', Hin. rewrite Forall_forall in Ha.
  apply (Hcross a a'); [by apply Ha|done|done].
Qed.

Lemma sorted_seq (a n : nat) : StronglySorted lt (seq a n).
Proof.
  revert a. induction n as [|n IH]; intros a; simpl; constructor; [apply IH|].
  apply Forall_forall. intros x Hx%elem_of_seq. lia.
Qed.

Lemma getUnfilledPositions_sorted (g : grid) :
  StronglySorted positionBefore (getUnfilledPositions g).
Proof.
  unfold getUnfilledPositions.
  apply (sorted_flat_map _ lt); [apply sorted_seq| |].
  - intros x. apply (sorted_flat_map _ lt); [apply sorted_seq| |].
    + intros y. destruct (cellIs g zero (x, y)); repeat constructor.
    + intros y y' p p' Hlt Hp Hp'.
      destruct (cellIs g zero (x, y)); [|by apply elem_of_nil in Hp].
      destruct (cellIs g zero (x, y')); [|by apply elem_of_nil in Hp'].
      apply list_elem_of_singleton in Hp as ->.
      apply list_elem_of_singleton in Hp' as ->. right. by split.
  - intros x x' p p' Hlt Hp Hp'.
    apply list_elem_of_In, in_flat_map in Hp as (y & _ & Hp).
    apply list_elem_of_In, in_flat_map in Hp' as (y' & _ & Hp').
    destruct (cellIs g zero (x, y)); simpl in Hp; [|done].
    destruct (cellIs g zero (x', y')); simpl in Hp'; [|done].
    destruct Hp as [<-|[]]. destruct Hp' as [<-|[]]. by left.
Qed.

(** X11.  [getUnfilledPositions] lists the cells that hold 0 among those
    whose row and column numbers are below the number of rows, each once,
    row by row and from left to right in a row, each with an empty list of
    tested values. *)
Theorem getUnfilledPositions_lists_zeros (g : grid) :
  (∀ x y, (x, y) ∈ coords <$> getUnfilledPositions g ↔
          x < length g ∧ y < length g ∧ cell g x y = Some zero) ∧
  NoDup (coords <$> getUnfilledPositions g) ∧
  StronglySorted positionBefore (getUnfilledPositions g) ∧
  ∀ p, p ∈ getUnfilledPositions g → Position.valuesTested p = [].
Proof.
  split_and!.
  - intros x y. split; [|intros (? & ? & ?); by apply unfilled_is_listed].
    intros (p & [= -> ->] & Hp)%list_elem_of_fmap.
    unfold getUnfilledPositions in Hp.
    apply list_elem_of_In, in_flat_map in Hp as (x & Hx & Hp).
    apply in_flat_map in Hp as (y & Hy & Hp).
    apply list_elem_of_In, elem_of_seq in Hx, Hy.
    destruct (cellIs g zero (x, y)) eqn:Hc; simpl in Hp; [|done].
    apply cellIs_Some in Hc.
    destruct Hp as [<-|[]]. simpl. split_and!; [lia..|done].
  - apply NoDup_getUnfilledPositions.
  - apply getUnfilledPositions_sorted.
  - intros p Hp. by apply elem_of_getUnfilledPositions in Hp as [_ ?].
Qed.

(** * Which solution the search finds *)

Section first_solution.
Implicit Types (g sol : grid) (s : sudoku) (st : search) (p q : Position.t).
Implicit Types (x y k j n : nat) (i v : Z) (w : number).

Lemma firstUntested_least g p i v :
  firstUntested g p = Some i → (1 ≤ v ≤ 9)%Z →
  v ∉ Position.valuesTested p →
  isValueValidInPosition g (Position.x p) (Position.y p) (ofZ v) false = true →
  (i ≤ v)%Z.
Proof.
  unfold firstUntested. intros (_ & _ & Hbefore)%find_candidates Hv Hfresh Hvalid.
  destruct (decide (i ≤ v)%Z) as [|Hgt]; [done|].
  pose proof (Hbefore v ltac:(lia)) as Hn. simpl in Hn.
  rewrite Hvalid, isValueTested_false in Hn by done. done.
Qed.

Lemma step_onTrackBelow s1 sol st st' :
  is9x9 (values s1) → solutionOf (values s1) sol → integral sol →
  searchGood s1 st → onTrackBelow sol st → step st = Continue st' →
  onTrackBelow sol st'.
Proof.
  intros Hshape (Hsol & Hsolved & Hkept) Hint (Hinv & Htail & Hfrom)
    (d & Hd & Hpre & Hbelow) Hstep.
  destruct (step_searchInv st st' Hinv Hstep) as (k & p & Hk & Hp & _ & Hcase).
  assert (is_Some (cellAt (values (game st)) p)) as Hinside.
  { destruct Hinv as [Hin _ _ _]. apply (Forall_lookup_1 _ _ _ _ Hin Hp). }
  assert (k < length (unfilledPositions st)) as Hklen by (by eapply lookup_lt_Some).
  destruct (decide (d = k)) as [->|Hdk].
  - assert (cell (values s1) (Position.x p) (Position.y p) = Some zero) as Hp0.
    { apply listed_is_unfilled. destruct Hfrom as [<- _].
      apply (list_elem_of_fmap_2 coords). by eapply list_elem_of_lookup_2. }
    assert (Position.x p < 9 ∧ Position.y p < 9) as [Hx Hy].
    { apply (cell_inside (values s1)); [done|by rewrite Hp0]. }
    destruct (filled_cell sol _ _ Hsol Hint Hsolved Hx Hy) as (v & Hv & Hrange).
    set (g' := values (game (clearCurrent st p))) in *.
    assert (cell g' (Position.x p) (Position.y p) = Some zero) as Hg'0.
    { unfold g'. simpl. by apply cell_setCell_eq. }
    assert (givensKept g' sol) as Hkept'.
    { intros x y w Hc Hw.
      destruct (decide ((x, y) = coords p)) as [[= -> ->]|Hne]; [congruence|].
      unfold g' in Hc. simpl in Hc. rewrite cell_setCell_ne in Hc by done.
      destruct (decide ((x, y) ∈ coords <$> unfilledPositions st)) as [Hin|Hout].
      - destruct (listed_entry st x y Hin) as (j & q & Hq & <- & <-).
        destruct (decide (j < k)) as [Hlt|Hge].
        + rewrite <- Hc. symmetry. by apply (Hpre j q).
        + destruct (decide (j = k)) as [->|Hjk].
          { rewrite Hp in Hq. injection Hq as <-. by destruct Hne. }
          destruct (Htail j q) as [Hz _]; [lia|done|].
          unfold cellAt in Hz. congruence.
      - pose proof Hfrom as [Hups _]. rewrite Hups in Hout.
        rewrite (search_frame s1 st x y Hfrom Hout) in Hc. by apply Hkept. }
    assert (isValueValidInPosition g' (Position.x p) (Position.y p) (ofZ v) false
            = true) as Hvalid.
    { apply (legal_in_partial g' sol); try done. rewrite ofZ_zero. lia. }
    assert (v ∉ Position.valuesTested p) as Hfresh.
    { intros Hin. pose proof (Hbelow p v v Hp Hv Hin). lia. }
    destruct Hcase as [(i & Hf & ->)|(Hf & _)].
    2:{ unfold firstUntested in Hf.
        pose proof (find_none _ _ Hf v (candidates_In v Hrange)) as Hn.
        simpl in Hn. fold g' in Hn.
        rewrite Hvalid, isValueTested_false in Hn by done. done. }
    pose proof (firstUntested_least g' p i v Hf Hrange Hfresh Hvalid) as Hle.
    destruct (decide (i = v)) as [->|Hiv].
    + exists (S k). simpl. rewrite Hk, Nat2Z.id. split_and!; [lia| |].
      * intros j q Hj Hq. destruct (decide (j = k)) as [->|Hjk].
        -- rewrite list_lookup_insert_eq in Hq by done. injection Hq as <-.
           unfold cellAt. simpl. rewrite Hv.
           by apply cell_setCell_eq, is_Some_cell_setCell.
        -- rewrite list_lookup_insert_ne in Hq by done.
           rewrite !(other_entry_cell _ st k p j q) by done.
           apply (Hpre j q); [lia|done].
      * intros q w t Hq _ Ht. rewrite list_lookup_insert_ne in Hq by lia.
        destruct (Htail (S k) q) as [_ Hempty]; [lia|done|].
        rewrite Hempty in Ht. by apply elem_of_nil in Ht.
    + exists k. simpl. rewrite Hk, Nat2Z.id. split_and!; [lia| |].
      * intros j q Hj Hq. rewrite list_lookup_insert_ne in Hq by lia.
        rewrite !(other_entry_cell _ st k p j q) by (done || lia).
        by apply (Hpre j q).
      * intros q w t Hq Hw Ht. rewrite list_lookup_insert_eq in Hq by done.
        injection Hq as <-. unfold cellAt in Hw. simpl in *.
        rewrite Hv in Hw. assert (w = v) as -> by (apply ofZ_inj; congruence).
        apply elem_of_app in Ht as [Ht| ->%list_elem_of_singleton]; [|lia].
        by apply (Hbelow p v t).
  - exists d.
    destruct Hcase as [(i & _ & ->)|(_ & ->)]; simpl; rewrite Hk, Nat2Z.id;
      (split_and!; [lia| |]).
    + intros j q Hj Hq. rewrite list_lookup_insert_ne in Hq by lia.
      rewrite !(other_entry_cell _ st k p j q) by (done || lia).
      by apply (Hpre j q).
    + intros q w t Hq. rewrite list_lookup_insert_ne in Hq by lia.
      by apply (Hbelow q w t).
    + intros j q Hj Hq. rewrite list_lookup_insert_ne in Hq by lia.
      rewrite !(other_entry_cell _ st k p j q) by (done || lia).
      by apply (Hpre j q).
    + intros q w t Hq. rewrite list_lookup_insert_ne in Hq by lia.
      by apply (Hbelow q w t).
Qed.

Lemma onTrackBelow_start s sol : onTrackBelow sol (searchStart s).
Proof.
  exists 0. split_and!; [done|intros; lia|].
  intros p v t Hp _ Ht. simpl in Hp.
  destruct (elem_of_getUnfilledPositions (values s) p) as [_ Hempty].
  - by eapply list_elem_of_lookup_2.
  - rewrite Hempty in Ht. by apply elem_of_nil in Ht.
Qed.

Lemma sorted_lookup {A} (R : relation A) (l : list A) (i j : nat) (a b : A) :
  StronglySorted R l → i < j → l !! i = Some a → l !! j = Some b → R a b.
Proof.
  intros Hl Hij Ha Hb. rewrite <- (take_drop j l) in Hl.
  apply (StronglySorted_app_1_elem_of R _ _ a b Hl).
  - apply list_elem_of_lookup. exists i. by rewrite lookup_take_lt.
  - apply list_elem_of_lookup. exists 0. by rewrite lookup_drop, Nat.add_0_r.
Qed.

Lemma listed_order g (l : list Position.t) j d p q :
  coords <$> l = coords <$> getUnfilledPositions g →
  l !! j = Some q → l !! d = Some p → d < j → positionBefore p q.
Proof.
  intros Hl Hq Hp Hdj.
  pose proof (getUnfilledPositions_sorted g) as Hsorted.
  assert (StronglySorted (λ c c', rowMajorBefore c.1 c.2 c'.1 c'.2)
            (coords <$> getUnfilledPositions g)) as Hc.
  { apply (StronglySorted_fmap _ positionBefore); [|exact Hsorted].
    intros a b Hab. exact Hab. }
  rewrite <- Hl in Hc.
  apply (sorted_lookup _ _ d j (coords p) (coords q) Hc Hdj).
  - by rewrite list_lookup_fmap, Hp.
  - by rewrite list_lookup_fmap, Hq.
Qed.

(** When the index has passed the last position, the matrix comes first
    among the solutions. *)
Lemma break_first s1 sol st :
  is9x9 (values s1) → solutionOf (values s1) sol → integral sol →
  is9x9 (values (game st)) →
  searchGood s1 st → onTrackBelow sol st →
  (Z.of_nat (length (unfilledPositions st)) ≤ nextIndex st)%Z →
  firstAmong (values (game st)) sol.
Proof.
  intros Hshape (Hsol & Hsolved & Hkept) Hint Hshape' (Hinv & Htail & Hfrom)
    (d & Hd & Hpre & Hbelow) Hend.
  assert (∀ x y, (x, y) ∉ coords <$> unfilledPositions st →
                 cell (values (game st)) x y = cell sol x y) as Hoff.
  { intros x y Hout. pose proof Hfrom as [Hups _]. rewrite Hups in Hout.
    rewrite (search_frame s1 st x y Hfrom Hout).
    destruct (cell (values s1) x y) as [w|] eqn:Hc.
    - destruct (decide (w = zero)) as [->|Hne]; [|symmetry; by apply Hkept].
      destruct Hout.
      assert (x < 9 ∧ y < 9) as [? ?]
        by (apply (cell_inside (values s1)); [done|by rewrite Hc]).
      destruct Hshape as [Hlen _].
      apply unfilled_is_listed; [lia..|done].
    - symmetry. apply eq_None_not_Some. intros Hs.
      apply (cell_inside sol) in Hs; [|apply Hsol].
      apply (cell_inside (values s1)) in Hs; [|done].
      rewrite Hc in Hs. by destruct Hs. }
  destruct (decide (d < length (unfilledPositions st))) as [Hlt|Hge].
  - right. apply lookup_lt_is_Some in Hlt as [p Hp].
    destruct Hinv as [Hin _ _ Hheld].
    destruct (Hheld d p) as (a & Ha & Hat); [|done|].
    { apply lookup_lt_Some in Hp. lia. }
    assert (is_Some (cellAt sol p)) as [w Hb].
    { apply (cell_inside sol); [apply Hsol|].
      apply (cell_inside (values (game st))); [done|].
      unfold cellAt in Ha. by rewrite Ha. }
    destruct (proj1 (isInteger_ofZ w) (Hint _ _ _ Hb)) as [b ->].
    exists (Position.x p), (Position.y p), a, b.
    split_and!; [done|done|by apply (Hbelow p b a)|].
    intros x' y' Hbefore.
    destruct (decide ((x', y') ∈ coords <$> unfilledPositions st)) as [Hin'|Hout];
      [|by apply Hoff].
    destruct (listed_entry st x' y' Hin') as (j & q & Hq & <- & <-).
    destruct (decide (j < d)) as [Hjd|Hjd]; [by apply (Hpre j q)|]. exfalso.
    destruct Hfrom as [Hups _].
    destruct (decide (j = d)) as [->|Hne].
    + rewrite Hp in Hq. injection Hq as <-.
      unfold rowMajorBefore in Hbefore. lia.
    + pose proof (listed_order (values s1) _ j d p q Hups Hq Hp) as Hord.
      unfold positionBefore, rowMajorBefore in *. lia.
  - left. apply grid_ext.
    + destruct Hshape' as [-> _]. by destruct Hsol as [[-> _] _ _ _ _].
    + intros x y. symmetry.
      destruct (decide ((x, y) ∈ coords <$> unfilledPositions st)) as [Hin'|Hout];
        [|by apply Hoff].
      destruct (listed_entry st x y Hin') as (j & q & Hq & <- & <-).
      apply (Hpre j q); [|done]. apply lookup_lt_Some in Hq. lia.
Qed.

Lemma searchLoop_first s1 sol fuel st :
  is9x9 (values s1) → solutionOf (values s1) sol → integral sol →
  consistent (values (game st)) → searchGood s1 st → onTrackBelow sol st →
  (searchLoop fuel st).1 = Returned →
  firstAmong (values (searchLoop fuel st).2) sol.
Proof.
  intros Hshape Hsol Hint. revert st.
  induction fuel as [|fuel IH]; intros st Hg Hgood Htrack; simpl; [done|].
  pose proof (step_consistent st Hg) as Hg'.
  destruct (step_inversion st) as [[Hs Hend]|[[Hs Hneg]|(k & p & _ & _ & Hcases)]].
  - rewrite Hs. simpl. intros _.
    apply (break_first s1); try done. apply Hg.
  - rewrite Hs. done.
  - destruct (step st) as [st'| |] eqn:Hstep.
    + apply IH; [done|by eapply step_searchGood|by eapply step_onTrackBelow].
    + destruct Hcases as [(? & _ & ?)|[(_ & _ & ?)|(_ & _ & ?)]]; done.
    + destruct Hcases as [(? & _ & ?)|[(_ & _ & ?)|(_ & _ & ?)]]; done.
Qed.

Lemma solved_solution_eq g sol :
  consistent g → isSolved g = true → solutionOf g sol → sol = g.
Proof.
  intros Hg Hsolved (Hsol & _ & Hkept). apply grid_ext.
  - destruct Hg as [[-> _] _ _ _ _]. by destruct Hsol as [[-> _] _ _ _ _].
  - intros x y. destruct (cell g x y) as [w|] eqn:Hc.
    + apply Hkept; [done|]. by apply (isSolved_cell g x y).
    + apply eq_None_not_Some. intros Hs.
      apply (cell_inside sol) in Hs; [|apply Hsol].
      apply (cell_inside g) in Hs; [|apply Hg]. rewrite Hc in Hs. by destruct Hs.
Qed.
End first_solution.

(** X12.  When [solve] returns normally on a matrix that the constructor
    accepted, the matrix it leaves is the first of the solutions in integers
    of the puzzle: any other complete consistent matrix whose cells are all
    integers and that keeps the givens has a larger value at the first cell,
    row by row and from left to right, where the two differ. *)
Theorem solve_returns_first_solution (m : grid) (s : sudoku) (fuel : nat)
    (sol : grid) :
  Sudoku m = inr s → (solve fuel s).1 = Returned →
  solutionOf m sol → integral sol →
  firstAmong (values (solve fuel s).2) sol.
Proof.
  intros [<- Hg]%accepted_consistent Hret Hsol Hint.
  destruct (propagate_solution sol fuel s Hint (conj Hg Hsol)) as [Hg1 Hsol1].
  revert Hret. unfold solve, solveByTrialAndError.
  destruct (propagate fuel s) as [[| |] s1]; simpl in *; [|done..].
  destruct (isSolved (values s1)) eqn:Hsolved; simpl.
  - intros _. left. by apply solved_solution_eq.
  - apply (searchLoop_first s1 sol); try done;
      [apply Hg1|apply searchGood_start|apply onTrackBelow_start].
Qed.

Lemma solve_returns_first_solution_witness :
  firstAmong (values (solve 100 game1).2) solved1.
Proof.
  apply (solve_returns_first_solution values1 game1 100 solved1).
  - vm_compute. reflexivity.
  - vm_compute. reflexivity.
  - split_and!.
    + apply validate_consistent. vm_compute. reflexivity.
    + vm_compute. reflexivity.
    + apply givensKeptb_spec. vm_compute. reflexivity.
  - apply integral_ofRows.
Defined.

(** * Calling [solve] again *)

Section history_not_read.
Implicit Types (g : grid) (s : sudoku) (st : search) (x y : nat).

(** The operations read the matrix only, never the history of writes: two
    objects with the same matrix are taken to objects with the same matrix. *)
Lemma sweepCell_same_values (acc acc' : sudoku * bool) x y :
  values acc.1 = values acc'.1 → acc.2 = acc'.2 →
  values (sweepCell acc x y).1 = values (sweepCell acc' x y).1 ∧
  (sweepCell acc x y).2 = (sweepCell acc' x y).2.
Proof.
  intros Hv Hb. unfold sweepCell. rewrite <- Hv.
  destruct (cellIs (values acc.1) zero (x, y)); [|done].
  destruct (find _ candidates); [|done]. simpl. by rewrite Hv.
Qed.

Lemma sweepRow_same_values (acc acc' : sudoku * bool) x :
  values acc.1 = values acc'.1 → acc.2 = acc'.2 →
  values (sweepRow acc x).1 = values (sweepRow acc' x).1 ∧
  (sweepRow acc x).2 = (sweepRow acc' x).2.
Proof.
  intros Hv Hb. unfold sweepRow. rewrite <- Hv.
  generalize (seq 0 (rowLength (values acc.1) x)). intros ys.
  revert acc acc' Hv Hb. induction ys as [|y ys IH]; intros acc acc' Hv Hb; simpl;
    [done|].
  destruct (sweepCell_same_values acc acc' x y Hv Hb). by apply IH.
Qed.

Lemma sweep_same_values s s' :
  values s = values s' →
  values (sweep s).1 = values (sweep s').1 ∧ (sweep s).2 = (sweep s').2.
Proof.
  intros Hv. unfold sweep. rewrite <- Hv.
  generalize (seq 0 (length (values s))). intros xs.
  assert (∀ acc acc' : sudoku * bool,
            values acc.1 = values acc'.1 → acc.2 = acc'.2 →
            values (fold_left sweepRow xs acc).1 =
              values (fold_left sweepRow xs acc').1 ∧
            (fold_left sweepRow xs acc).2 = (fold_left sweepRow xs acc').2) as H.
  { induction xs as [|x xs IH]; intros acc acc' Ha Hb; simpl; [done|].
    destruct (sweepRow_same_values acc acc' x Ha Hb). by apply IH. }
  by apply H.
Qed.

Lemma propagate_same_values fuel s s' :
  values s = values s' →
  (propagate fuel s).1 = (propagate fuel s').1 ∧
  values (propagate fuel s).2 = values (propagate fuel s').2.
Proof.
  revert s s'. induction fuel as [|fuel IH]; intros s s' Hv; simpl; rewrite <- Hv.
  - by destruct (isSolved (values s)).
  - destruct (isSolved (values s)); [done|].
    destruct (sweep_same_values s s' Hv) as [Hv1 <-].
    destruct (sweep s).2; [by apply IH|done].
Qed.

Lemma step_same_values st st' :
  values (game st) = values (game st') →
  unfilledPositions st = unfilledPositions st' → nextIndex st = nextIndex st' →
  values (gameAfter (step st)) = values (gameAfter (step st')) ∧
  match step st, step st' with
  | Continue a, Continue a' =>
      values (game a) = values (game a') ∧
      unfilledPositions a = unfilledPositions a' ∧ nextIndex a = nextIndex a'
  | Break _, Break _ => True
  | TypeError _, TypeError _ => True
  | _, _ => False
  end.
Proof.
  intros Hv Hu Hn. unfold step. rewrite <- Hu, <- Hn.
  destruct (_ <? _)%Z; [done|].
  destruct (arrayGet _ _) as [p|]; [|done]. simpl. rewrite <- Hv.
  destruct (firstUntested _ p); simpl; [by rewrite ?Hv, ?Hu, ?Hn|].
  destruct (negb _); simpl; by rewrite ?Hv, ?Hu, ?Hn.
Qed.

Lemma searchLoop_same_values fuel st st' :
  values (game st) = values (game st') →
  unfilledPositions st = unfilledPositions st' → nextIndex st = nextIndex st' →
  (searchLoop fuel st).1 = (searchLoop fuel st').1 ∧
  values (searchLoop fuel st).2 = values (searchLoop fuel st').2.
Proof.
  revert st st'. induction fuel as [|fuel IH]; intros st st' Hv Hu Hn; simpl;
    [done|].
  destruct (step_same_values st st' Hv Hu Hn) as [Hafter Hrel].
  destruct (step st), (step st'); simpl in *; try done.
  destruct Hrel as (? & ? & ?). by apply IH.
Qed.

Lemma solve_same_values fuel s s' :
  values s = values s' →
  (solve fuel s).1 = (solve fuel s').1 ∧
  values (solve fuel s).2 = values (solve fuel s').2.
Proof.
  intros Hv. unfold solve, solveByTrialAndError.
  destruct (propagate_same_values fuel s s' Hv) as [Hst Hv1].
  destruct (propagate fuel s) as [st1 s1], (propagate fuel s') as [st1' s1'].
  simpl in *. subst st1'. destruct st1; try done.
  rewrite <- Hv1. destruct (negb _); [|done].
  apply searchLoop_same_values; simpl; [done|by rewrite Hv1|done].
Qed.
End history_not_read.

Lemma solve_unfold (fuel : nat) (s : sudoku) :
  solve fuel s =
    match propagate fuel s with
    | (Returned, s1) =>
        if isSolved (values s1) then (Returned, s1)
        else searchLoop fuel (searchStart s1)
    | r => r
    end.
Proof.
  unfold solve, solveByTrialAndError.
  destruct (propagate fuel s) as [[| |] s1]; try done.
  by destruct (isSolved (values s1)).
Qed.

(** X13.  Calling [solve] a second time changes nothing: on a matrix that
    the constructor accepted, a second run that ends, after a first run that
    ended, ends in the same way and leaves the matrix as the first run left
    it. *)
Theorem solve_twice (m : grid) (s : sudoku) (fuel fuel' : nat) :
  Sudoku m = inr s →
  (solve fuel s).1 ≠ OutOfFuel →
  (solve fuel' (solve fuel s).2).1 ≠ OutOfFuel →
  (solve fuel' (solve fuel s).2).1 = (solve fuel s).1 ∧
  values (solve fuel' (solve fuel s).2).2 = values (solve fuel s).2.
Proof.
  intros [<- Hg]%accepted_consistent Hend Hend'.
  pose proof (solve_outcome s fuel Hg) as Hout.
  pose proof (solve_unfold fuel s) as Hu.
  pose proof (propagate_not_Threw fuel s) as Hnt.
  pose proof (propagate_fixed s fuel) as Hfixed.
  destruct (solve fuel s) as [status s2] eqn:Hrun. simpl in *.
  destruct status; [| |done].
  - (* the first run returned: the matrix is complete *)
    rewrite solve_unfold.
    assert (propagate fuel' s2 = (Returned, s2)) as ->
      by (destruct fuel'; simpl; by rewrite Hout).
    by rewrite Hout.
  - (* the first run threw: the matrix is the fixed point of the sweeps *)
    destruct Hout as [Hsame Hunsolved].
    destruct (propagate fuel s) as [[| |] s1]; simpl in *; [|done|done].
    rewrite Hunsolved in Hu.
    destruct Hfixed as [Hsolved|Hsweep]; [done|congruence|].
    destruct (solve_same_values fuel' s2 s1 Hsame) as [Est Eval].
    rewrite Est in Hend' |- *. rewrite Eval. clear Est Eval.
    rewrite solve_unfold in Hend' |- *.
    assert (propagate fuel' s1 = (Returned, s1)) as Hp'.
    { destruct fuel'; simpl in *; rewrite Hunsolved in *; [done|].
      by rewrite Hsweep. }
    rewrite Hp', Hunsolved in Hend' |- *.
    assert (searchLoop fuel' (searchStart s1) = searchLoop fuel (searchStart s1))
      as ->.
    { rewrite <- (searchLoop_fuel fuel' fuel), <- (searchLoop_fuel fuel fuel');
        [by rewrite Nat.add_comm|by rewrite <- Hu|done]. }
    by rewrite <- Hu.
Qed.

Lemma solve_twice_witness :
  (solve 3 (solve 2 deadEndGame).2).1 = (solve 2 deadEndGame).1 ∧
  values (solve 3 (solve 2 deadEndGame).2).2 = values (solve 2 deadEndGame).2.
Proof.
  apply (solve_twice deadEndGrid deadEndGame 2 3);
    vm_compute; (reflexivity || discriminate).
Defined.
